(** * supereeg: reconstruction without expansion and the column-correlation metric

    A shallow embedding of the two helper routines written out in
    [docs/auto_examples/simulated_patient_data.py]:

    - [recon_no_expand(bo_sub, mo)] (lines 202-214), which conditions the
      activity at the unobserved locations on the observed ones through the
      pseudo-inverse of the observed block of the correlation model;
    - [corr(X, Y)] (lines 217-218), the column-by-column Pearson correlation.

    The routines run on numpy arrays of binary64 numbers.  The embedding is
    parametric in the scalar type (class [Scalar]); two instances are given,
    the binary64 numbers of the kernel ([float_scalar]), on which the code
    runs, and the real numbers ([R_scalar]), in which the algebra of the
    estimate is exact.  The library calls the routines make ([np.dot],
    fancy indexing, [np.squeeze], [DataFrame.drop], [scipy.stats.zscore],
    [scipy.stats.pearsonr]) are written out; [np.linalg.pinv] and the
    helper [z2r] are parameters of the development. *)

From Stdlib Require Import List ZArith Lia Bool Arith Sorted Permutation.
From Stdlib Require Import Reals Lra.
From Stdlib Require Import Floats.
From Stdlib Require String Ascii DecimalString DecimalNat DecimalFacts.
Import ListNotations.

Local Open Scope nat_scope.

(* ================================================================= *)
(** ** Exceptions and the error monad *)

(** The exceptions the library calls raise: [KeyError] ([DataFrame.drop] of
    a label that is not in the index), [IndexError] (an index out of bounds,
    a boolean mask of the wrong shape), [ValueError] (shapes that are not
    aligned or cannot be broadcast) and [LinAlgError] (an SVD that does not
    converge). *)
Inductive exn : Type :=
| KeyError
| IndexError
| ValueError
| LinAlgError.

Inductive result (A : Type) : Type :=
| Ok (a : A)
| Raise (e : exn).

Arguments Ok {A} a.
Arguments Raise {A} e.

Definition bind {A B : Type} (c : result A) (k : A -> result B) : result B :=
  match c with
  | Ok a => k a
  | Raise e => Raise e
  end.

Notation "x <- c ;; k" := (bind c (fun x => k))
  (at level 61, c at next level, right associativity).

(** Python evaluates a list comprehension from left to right and stops at
    the first element that raises. *)
Fixpoint mapM {A B : Type} (f : A -> result B) (l : list A) : result (list B) :=
  match l with
  | [] => Ok []
  | a :: l' => b <- f a ;; bs <- mapM f l' ;; Ok (b :: bs)
  end.


(* ================================================================= *)
(** ** Scalars *)

Class Scalar (F : Type) : Type := {
  fzero : F;
  fone : F;
  fadd : F -> F -> F;
  fsub : F -> F -> F;
  fmul : F -> F -> F;
  fdiv : F -> F -> F;
  fsqrt : F -> F;
  fltb : F -> F -> bool;
  of_nat : nat -> F;
  is_finite : F -> bool
}.

(** binary64, as numpy's float64. *)
#[export] Instance float_scalar : Scalar float := {|
  fzero := PrimFloat.zero;
  fone := PrimFloat.one;
  fadd := PrimFloat.add;
  fsub := PrimFloat.sub;
  fmul := PrimFloat.mul;
  fdiv := PrimFloat.div;
  fsqrt := PrimFloat.sqrt;
  fltb := PrimFloat.ltb;
  of_nat := fun n => PrimFloat.of_uint63 (Uint63.of_Z (Z.of_nat n));
  is_finite := PrimFloat.is_finite
|}.

(** The real numbers: exact arithmetic, every number finite. *)
#[export] Instance R_scalar : Scalar R := {|
  fzero := 0%R;
  fone := 1%R;
  fadd := Rplus;
  fsub := Rminus;
  fmul := Rmult;
  fdiv := Rdiv;
  fsqrt := R_sqrt.sqrt;
  fltb := fun a b => if Rlt_dec a b then true else false;
  of_nat := INR;
  is_finite := fun _ => true
|}.

(* ================================================================= *)
(** ** Arrays *)

(** A two-dimensional array: its rows, and the number of columns kept apart
    so that the shapes [(0, k)] and [(t, 0)] are both represented. *)
Record matrix (F : Type) : Type := mkmat {
  ncols : nat;
  rows : list (list F)
}.

Arguments mkmat {F} ncols rows.
Arguments ncols {F} m.
Arguments rows {F} m.

Definition nrows {F : Type} (m : matrix F) : nat := length (rows m).

Definition wf {F : Type} (m : matrix F) : bool :=
  forallb (fun r => length r =? ncols m) (rows m).

(** What [np.squeeze] can return from a two-dimensional array. *)
Inductive ndarray (F : Type) : Type :=
| Arr0 (x : F)
| Arr1 (xs : list F)
| Arr2 (m : matrix F).

Arguments Arr0 {F} x.
Arguments Arr1 {F} xs.
Arguments Arr2 {F} m.

Definition shape {F : Type} (a : ndarray F) : list nat :=
  match a with
  | Arr0 _ => []
  | Arr1 xs => [length xs]
  | Arr2 m => [nrows m; ncols m]
  end.


Definition elements {F : Type} (a : ndarray F) : list F :=
  match a with
  | Arr0 x => [x]
  | Arr1 xs => xs
  | Arr2 m => concat (rows m)
  end.

Definition map2 {A B C : Type} (f : A -> B -> C) (xs : list A) (ys : list B) : list C :=
  map (fun p => f (fst p) (snd p)) (combine xs ys).

Definition map_mat {F G : Type} (f : F -> G) (m : matrix F) : matrix G :=
  mkmat (ncols m) (map (map f) (rows m)).

(** [np.eye(n) == 1]: the boolean identity mask. *)
Definition eye_mask (n : nat) : matrix bool :=
  mkmat n (map (fun i => map (fun j => i =? j) (seq 0 n)) (seq 0 n)).

(** [a[mask] = v] for a boolean mask, which must have the shape of [a]. *)
Definition set_where {F : Type} (a : matrix F) (mask : matrix bool) (v : F)
  : result (matrix F) :=
  if (nrows mask =? nrows a) && (ncols mask =? ncols a)
  then Ok (mkmat (ncols a)
             (map2 (map2 (fun x (b : bool) => if b then v else x)) (rows a) (rows mask)))
  else Raise IndexError.

(** numpy's handling of an integer index on an axis of length [n]:
    negative indices count from the end. *)
Definition norm_index (n : nat) (i : Z) : result nat :=
  if ((0 <=? i) && (i <? Z.of_nat n))%Z then Ok (Z.to_nat i)
  else if ((- Z.of_nat n <=? i) && (i <? 0))%Z then Ok (Z.to_nat (i + Z.of_nat n))
  else Raise IndexError.

(** [DataFrame.drop(labels)] on the index of a frame, followed by
    [.index.values]: every label must be present. *)
Definition drop (labels : list Z) (index : list Z) : result (list Z) :=
  if forallb (fun l => existsb (Z.eqb l) index) labels
  then Ok (filter (fun i => negb (existsb (Z.eqb i) labels)) index)
  else Raise KeyError.

(** numpy's broadcasting of two lengths of an axis: they are equal, or one
    of them is one. *)
Definition broadcast_len (n m : nat) : result nat :=
  if n =? m then Ok n
  else if n =? 1 then Ok m
  else if m =? 1 then Ok n
  else Raise ValueError.

(** An axis of length one, repeated to the length [n]. *)
Definition stretch {A : Type} (d : A) (n : nat) (l : list A) : list A :=
  if length l =? n then l else repeat (hd d l) n.

Section Arrays.
Context {F : Type} {SF : Scalar F}.

Definition entry (m : matrix F) (i j : nat) : F :=
  nth j (nth i (rows m) []) fzero.

Definition column (j : nat) (m : matrix F) : list F :=
  map (fun r => nth j r fzero) (rows m).

(** [a.T] *)
Definition transpose (m : matrix F) : matrix F :=
  mkmat (nrows m) (map (fun j => column j m) (seq 0 (ncols m))).

(** [a[inds, :]] *)
Definition take_rows (inds : list Z) (m : matrix F) : result (matrix F) :=
  rs <- mapM (fun i => k <- norm_index (nrows m) i ;; Ok (nth k (rows m) [])) inds ;;
  Ok (mkmat (ncols m) rs).

(** [a[:, inds]] *)
Definition take_cols (inds : list Z) (m : matrix F) : result (matrix F) :=
  ks <- mapM (norm_index (ncols m)) inds ;;
  Ok (mkmat (length inds) (map (fun r => map (fun k => nth k r fzero) ks) (rows m))).

(** The inner product of a row and a column, summed from the left. *)
Definition dotprod (xs ys : list F) : F :=
  fold_left (fun acc p => fadd acc (fmul (fst p) (snd p))) (combine xs ys) fzero.

Definition mat_mul (a b : matrix F) : matrix F :=
  mkmat (ncols b)
    (map (fun r => map (fun j => dotprod r (column j b)) (seq 0 (ncols b))) (rows a)).

(** [np.dot(a, b)] on two-dimensional arrays. *)
Definition dot (a b : matrix F) : result (matrix F) :=
  if ncols a =? nrows b then Ok (mat_mul a b) else Raise ValueError.

(** [np.divide(a, b)] on two-dimensional arrays, with broadcasting. *)
Definition np_divide (a b : matrix F) : result (matrix F) :=
  r <- broadcast_len (nrows a) (nrows b) ;;
  c <- broadcast_len (ncols a) (ncols b) ;;
  Ok (mkmat c
        (map2 (fun ra rb => map2 fdiv (stretch fzero c ra) (stretch fzero c rb))
           (stretch [] r (rows a)) (stretch [] r (rows b)))).

(** [np.squeeze]: the axes of length one are removed. *)
Definition squeeze (m : matrix F) : ndarray F :=
  match nrows m, ncols m with
  | 1, 1 => Arr0 (entry m 0 0)
  | 1, _ => Arr1 (nth 0 (rows m) [])
  | _, 1 => Arr1 (column 0 m)
  | _, _ => Arr2 m
  end.

Definition squeeze_shape (t c : nat) : list nat :=
  filter (fun d => negb (d =? 1)) [t; c].

Definition np_sum (xs : list F) : F := fold_left fadd xs fzero.

Definition np_mean (xs : list F) : F := fdiv (np_sum xs) (of_nat (length xs)).

Definition sum_of_squares (xs : list F) : F := np_sum (map (fun x => fmul x x) xs).

(** [np.std] with [ddof=0]. *)
Definition np_std (xs : list F) : F :=
  let m := np_mean xs in
  fsqrt (fdiv (sum_of_squares (map (fun x => fsub x m) xs)) (of_nat (length xs))).

(** [scipy.stats.zscore(a)], along axis 0: [(a - a.mean(0)) / a.std(0)]. *)
Definition zscore (a : matrix F) : matrix F :=
  let mns := map (fun j => np_mean (column j a)) (seq 0 (ncols a)) in
  let sstd := map (fun j => np_std (column j a)) (seq 0 (ncols a)) in
  mkmat (ncols a) (map (fun r => map2 fdiv (map2 fsub r mns) sstd) (rows a)).

(** [xm * ym] on one-dimensional arrays, with broadcasting. *)
Definition np_multiply (xs ys : list F) : result (list F) :=
  n <- broadcast_len (length xs) (length ys) ;;
  Ok (map2 fmul (stretch fzero n xs) (stretch fzero n ys)).

(** Python's [min(a, b)] and [max(a, b)]: the first argument is kept
    unless the second is strictly smaller (resp. larger). *)
Definition py_min (a b : F) : F := if fltb b a then b else a.
Definition py_max (a b : F) : F := if fltb a b then b else a.

(** [scipy.stats.pearsonr(x, y)[0]], as in the releases of scipy that run
    on Python 2, the language of the scripts: the lengths are not checked,
    the coefficient is clipped to [-1, 1]. *)
Definition pearsonr (x y : list F) : result F :=
  let mx := np_mean x in
  let my := np_mean y in
  let xm := map (fun v => fsub v mx) x in
  let ym := map (fun v => fsub v my) y in
  prod <- np_multiply xm ym ;;
  let r_num := np_sum prod in
  let r_den := fsqrt (fmul (sum_of_squares xm) (sum_of_squares ym)) in
  let r := fdiv r_num r_den in
  Ok (py_max (py_min r fone) (fsub fzero fone)).

(** [corr(X, Y)], lines 217-218. *)
Definition corr (X Y : matrix F) : result (ndarray F) :=
  rs <- mapM (fun p => pearsonr (fst p) (snd p))
          (combine (rows (transpose X)) (rows (transpose Y))) ;;
  Ok (Arr1 rs).

Definition mat_finite (m : matrix F) : bool :=
  forallb (forallb is_finite) (rows m).

End Arrays.

(* ================================================================= *)
(** ** The objects of the toolkit *)

(** A brain object, as far as [recon_no_expand] reads it: [bo.get_data()]
    (time samples by electrodes) and [bo.locs.index.values]. *)
Record Brain (F : Type) : Type := mkBrain {
  data : matrix F;
  locs_index : list Z
}.

Arguments mkBrain {F} data locs_index.
Arguments data {F} b.
Arguments locs_index {F} b.

Definition get_data {F : Type} (bo : Brain F) : matrix F := data bo.

(** A model object: the two sufficient statistics and the index of
    [mo.locs]. *)
Record Model (F : Type) : Type := mkModel {
  numerator : matrix F;
  denominator : matrix F;
  mo_locs_index : list Z
}.

Arguments mkModel {F} numerator denominator mo_locs_index.
Arguments numerator {F} m.
Arguments denominator {F} m.
Arguments mo_locs_index {F} m.

(** The default index of a frame of [L] locations, [0 .. L-1]. *)
Definition range_index (L : nat) : list Z := map Z.of_nat (seq 0 L).

(* ================================================================= *)
(** ** recon_no_expand *)

Section Reconstruction.
Context {F : Type} {SF : Scalar F}.

(** [supereeg._helpers.stats.z2r], the inverse Fisher transform, which the
    script imports from the package: a parameter, applied elementwise. *)
Variable z2r : F -> F.

(** [np.linalg.pinv]: it returns a matrix or raises [LinAlgError]. *)
Variable pinv : matrix F -> result (matrix F).

(** Lines 205-206: the correlation matrix from the sufficient
    statistics, with its diagonal set to one. *)
Definition correlation_model (mo : Model F) : result (matrix F) :=
  q <- np_divide (numerator mo) (denominator mo) ;;
  let model := map_mat z2r q in
  set_where model (eye_mask (nrows model)) fone.

(** The rows the two lines build for a model of [L] locations. *)
Definition model_rows (mo : Model F) (L : nat) : list (list F) :=
  map2 (map2 (fun x (b : bool) => if b then fone else x))
    (map (map z2r) (map2 (map2 fdiv) (rows (numerator mo)) (rows (denominator mo))))
    (rows (eye_mask L)).

(** What is assumed of [np.linalg.pinv]: on an [m x n] array it returns,
    when it returns, an [n x m] array; and it returns on every array of
    finite numbers. *)
Definition pinv_shape : Prop :=
  forall a p, wf a = true -> pinv a = Ok p ->
              wf p = true /\ nrows p = ncols a /\ ncols p = nrows a.

Definition pinv_converges : Prop :=
  forall a, wf a = true -> mat_finite a = true -> exists p, pinv a = Ok p.

(** Lines 207-214: the conditioning on the observed locations. *)
Definition recon_from_model (model : matrix F) (bo_sub : Brain F)
    (mo_locs : list Z) : result (ndarray F) :=
  let known_inds := locs_index bo_sub in
  unknown_inds <- drop known_inds mo_locs ;;
  Kba_rows <- take_rows unknown_inds model ;;
  Kba <- take_cols known_inds Kba_rows ;;
  Kaa_cols <- take_cols known_inds model ;;
  Kaa <- take_rows known_inds Kaa_cols ;;
  let Y := zscore (get_data bo_sub) in
  P <- pinv Kaa ;;
  KbaP <- dot Kba P ;;
  est <- dot KbaP (transpose Y) ;;
  Ok (squeeze (transpose est)).

Definition recon_no_expand (bo_sub : Brain F) (mo : Model F) : result (ndarray F) :=
  model <- correlation_model mo ;;
  recon_from_model model bo_sub (mo_locs_index mo).

(* --------------------------------------------------------------- *)
(** *** The estimate as the specification words it *)

(** The unobserved indices: those of [0 .. L-1] that were not observed,
    in ascending order. *)
Definition unobserved (L : nat) (observed : list Z) : list Z :=
  filter (fun i => negb (existsb (Z.eqb i) observed)) (range_index L).

(** [M[rs, cs]]: the block of [M] on the rows [rs] and the columns [cs]. *)
Definition block (M : matrix F) (rs cs : list Z) : matrix F :=
  mkmat (length cs)
    (map (fun i => map (fun j => entry M (Z.to_nat i) (Z.to_nat j)) cs) rs).

Definition K_ba (M : matrix F) (L : nat) (observed : list Z) : matrix F :=
  block M (unobserved L observed) observed.

Definition K_aa (M : matrix F) (observed : list Z) : matrix F :=
  block M observed observed.

(** [K_ba . P . Y^T], transposed back; [P] stands for [pinv(K_aa)]. *)
Definition reconstruct_spec (M : matrix F) (L : nat) (observed : list Z)
    (observation P : matrix F) : matrix F :=
  transpose (mat_mul (mat_mul (K_ba M L observed) P) (transpose (zscore observation))).


(** The estimate at one location [u]: the row of [K_ba . P] that belongs
    to [u], applied to every standardized sample. *)
Definition weights (M : matrix F) (u : Z) (observed : list Z) (P : matrix F) : list F :=
  map (fun k => dotprod (map (fun c => entry M (Z.to_nat u) (Z.to_nat c)) observed)
                  (column k P))
    (seq 0 (ncols P)).

Definition location_estimate (M : matrix F) (u : Z) (observed : list Z)
    (observation P : matrix F) : list F :=
  map (fun t => dotprod (weights M u observed P)
                  (column t (transpose (zscore observation))))
    (seq 0 (nrows observation)).




(* --------------------------------------------------------------- *)
(** *** A computable pseudo-inverse

    The Newton-Schulz iteration [X <- 2X - X A X] from
    [X0 = A^T / (|A|_1 |A|_inf)] converges to the Moore-Penrose inverse of
    any matrix.  It instantiates the parameter [pinv] where a statement is
    evaluated on concrete arrays. *)

Definition fabs (x : F) : F := if fltb x fzero then fsub fzero x else x.
Definition fmax (a b : F) : F := if fltb a b then b else a.

Definition norm_inf (a : matrix F) : F :=
  fold_left fmax (map (fun r => np_sum (map fabs r)) (rows a)) fzero.

Definition norm_1 (a : matrix F) : F := norm_inf (transpose a).

Definition mat_sub (a b : matrix F) : matrix F :=
  mkmat (ncols a) (map2 (map2 fsub) (rows a) (rows b)).

Definition newton_step (a x : matrix F) : matrix F :=
  mat_sub (map_mat (fmul (fadd fone fone)) x) (mat_mul (mat_mul x a) x).

Definition newton_schulz (n : nat) (a : matrix F) : matrix F :=
  let c := fmul (norm_1 a) (norm_inf a) in
  if fltb fzero c
  then Nat.iter n (newton_step a) (map_mat (fun x => fdiv x c) (transpose a))
  else transpose a.

Definition pinv_newton (a : matrix F) : result (matrix F) :=
  if mat_finite a then Ok (newton_schulz 40 a) else Raise LinAlgError.

End Reconstruction.

(* ================================================================= *)
(** ** Concrete arrays

    The arrays on which the statements below are evaluated: binary64 ones,
    where the value the code returns matters, and real ones, where the
    model is built from its sufficient statistics with [z2r = tanh]. *)

Module Float64.
Local Open Scope float_scope.

(** Five locations, unit diagonal, every other correlation 0.5. *)
Definition model_5 : matrix float :=
  mkmat 5 (map (fun i => map (fun j => if (i =? j)%nat then 1 else 0.5) (seq 0 5)) (seq 0 5)).

Definition zeros_10x2 : matrix float := mkmat 2 (repeat [0; 0] 10).
Definition zeros_10x3 : matrix float := mkmat 3 (repeat [0; 0; 0] 10).
Definition nan_10x3 : matrix float := mkmat 3 (repeat [nan; nan; nan] 10).

Definition bo_zeros : Brain float := mkBrain zeros_10x2 [0%Z; 1%Z].



(** Three samples of two electrodes, neither constant. *)
Definition bo_varying : Brain float :=
  mkBrain (mkmat 2 [[1; 2]; [3; 5]; [0; 1]]) [0%Z; 1%Z].


Definition X_2_columns : matrix float := mkmat 2 [[1; 2]; [3; 5]; [0; 1]].
Definition Y_3_columns : matrix float := mkmat 3 [[1; 2; 4]; [3; 5; 5]; [0; 1; 6]].

Definition pinv : matrix float -> result (matrix float) := pinv_newton.
End Float64.

Module Real.
Local Open Scope R_scope.

(** Sufficient statistics of five locations: the correlation of the
    locations 0 and 1 is zero, every other one is [tanh (1/2)]. *)
Definition num : matrix R :=
  mkmat 5 [[1; 0; /2; /2; /2];
           [0; 1; /2; /2; /2];
           [/2; /2; 1; /2; /2];
           [/2; /2; /2; 1; /2];
           [/2; /2; /2; /2; 1]].

Definition den : matrix R := mkmat 5 (repeat (repeat 1 5) 5).

Definition mo : Model R := mkModel num den (range_index 5).

Definition M : matrix R := mkmat 5 (model_rows tanh mo 5).

Definition pinv : matrix R -> result (matrix R) := pinv_newton.

(** Three samples at the locations 0 and 1. *)
Definition bo_3x2 : Brain R := mkBrain (mkmat 2 [[1; 2]; [3; 5]; [0; 1]]) [0%Z; 1%Z].

(** One sample at the locations 0 and 1. *)
Definition bo_1x2 : Brain R := mkBrain (mkmat 2 [[1; 2]]) [0%Z; 1%Z].

(** Three samples at four locations: one location is left. *)
Definition bo_3x4 : Brain R :=
  mkBrain (mkmat 4 [[1; 2; 0; 1]; [3; 5; 1; 0]; [0; 1; 2; 2]]) [0%Z; 1%Z; 2%Z; 3%Z].

(** Two samples at all five locations. *)
Definition bo_2x5 : Brain R :=
  mkBrain (mkmat 5 [[1; 2; 0; 1; 4]; [3; 5; 1; 0; 2]]) [0%Z; 1%Z; 2%Z; 3%Z; 4%Z].

(** An index that is not a location of the model. *)
Definition bo_index_7 : Brain R := mkBrain (mkmat 2 [[1; 2]; [3; 5]; [0; 1]]) [0%Z; 7%Z].

End Real.

(* ================================================================= *)
(** ** The evaluation of a reconstruction (lines 221-231) *)

Section Harness.
Context {F : Type} {SF : Scalar F}.
Variable z2r : F -> F.
Variable pinv : matrix F -> result (matrix F).

(** [np.atleast_2d]: a scalar becomes a [1 x 1] array, a one-dimensional
    array of length [n] a [1 x n] array. *)
Definition atleast_2d (a : ndarray F) : matrix F :=
  match a with
  | Arr0 x => mkmat 1 [[x]]
  | Arr1 xs => mkmat (length xs) [xs]
  | Arr2 m => m
  end.

(** Lines 221-228: the reconstruction brought back to two dimensions and
    correlated, column by column, with the standardized activity that was
    held out ([actual_data] stands for
    [bo_actual.data.loc[:, unknown_inds].as_matrix()]). *)
Definition corr_vals (actual_data : matrix F) (bo_sub : Brain F) (mo : Model F)
  : result (ndarray F) :=
  r <- recon_no_expand z2r pinv bo_sub mo ;;
  let predicted := atleast_2d r in
  let actual := zscore actual_data in
  corr actual predicted.

(** Line 231: the entry ['Correlation': np.mean(corr_vals)]. *)
Definition mean_correlation (actual_data : matrix F) (bo_sub : Brain F) (mo : Model F)
  : result F :=
  cv <- corr_vals actual_data bo_sub mo ;;
  Ok (np_mean (elements cv)).

End Harness.

(* ================================================================= *)
(** ** The simulated correlation matrix (lines 72-75) *)

Section Similarity.
Context {F : Type} {SF : Scalar F}.

(** A number is NaN when it is neither below one nor above zero. *)
Definition np_isnan (x : F) : bool := negb (fltb x fone || fltb fzero x).

(** [np.maximum] and [np.minimum]: a NaN operand is returned. *)
Definition np_maximum (a b : F) : F :=
  if np_isnan a then a else if np_isnan b then b else if fltb a b then b else a.

Definition np_minimum (a b : F) : F :=
  if np_isnan a then a else if np_isnan b then b else if fltb b a then b else a.

(** [np.max] and [np.min] over all the entries; an array without entries
    raises [ValueError]. *)
Definition np_max (m : matrix F) : result F :=
  match concat (rows m) with
  | [] => Raise ValueError
  | x :: xs => Ok (fold_left np_maximum xs x)
  end.

Definition np_min (m : matrix F) : result F :=
  match concat (rows m) with
  | [] => Raise ValueError
  | x :: xs => Ok (fold_left np_minimum xs x)
  end.

(** Lines 73-75, on the matrix [D = squareform(pdist(locs))] of the
    distances between the locations:
    [R = np.max(D) - D; R = R - np.min(R); R = R / np.max(R)]. *)
Definition distance_similarity (D : matrix F) : result (matrix F) :=
  mx <- np_max D ;;
  let R1 := map_mat (fun d => fsub mx d) D in
  mn <- np_min R1 ;;
  let R2 := map_mat (fun r => fsub r mn) R1 in
  mx2 <- np_max R2 ;;
  Ok (map_mat (fun r => fdiv r mx2) R2).

End Similarity.

(* ================================================================= *)
(** ** The files of the synthetic patients (lines 77-82 and 110) *)

Module FileNames.
Import String Ascii.
Local Open Scope string_scope.

(** [str(n)] of a non-negative integer: its decimal digits. *)
Definition py_str (n : nat) : string :=
  DecimalString.NilEmpty.string_of_uint (Nat.to_uint n).

Definition fill (k : nat) (c : ascii) : string := Nat.iter k (String c) EmptyString.

(** [s.rjust(width, c)]: [s] padded on the left to the length [width]. *)
Definition rjust (width : nat) (c : ascii) (s : string) : string :=
  if (width <=? String.length s)%nat then s
  else fill (width - String.length s) c ++ s.

(** Line 81: ['synthetic_' + str(count).rjust(2, '0')]. *)
Definition synthetic_name (count : nat) : string :=
  "synthetic_" ++ rjust 2 "0" (py_str count).

(** Line 110: the file that is opened for the patient [i]. *)
Definition synthetic_file (i : nat) : string :=
  "synthetic_" ++ rjust 2 "0" (py_str i) ++ ".bo".

(** Lines 77-82: the names under which the fifty patients are saved. *)
Definition saved_names : list string := map synthetic_name (seq 0 50).

End FileNames.

(* ================================================================= *)
(** ** More concrete arrays *)

Module Samples.

(** The activity held out at the three unknown locations, three samples. *)
Definition actual_3x3 : matrix R :=
  mkmat 3 [[0; 1; 2]; [1; 0; 4]; [2; 5; 0]]%R.

(** The activity held out at the one unknown location, three samples. *)
Definition actual_3x1 : matrix R := mkmat 1 [[0]; [1]; [5]]%R.

(** No location is held out, two samples. *)
Definition actual_2x0 : matrix R := mkmat 0 [[]; []].

(** A brain object without electrodes, three samples. *)
Definition bo_3x0 : Brain R := mkBrain (mkmat 0 [[]; []; []]) [].

(** Statistics that are not square. *)
Definition mo_2x3 : Model R :=
  mkModel (mkmat 3 [[1; 2; 3]; [4; 5; 6]]%R) (mkmat 3 [[1; 1; 1]; [1; 1; 1]]%R)
    (range_index 2).

(** The statistics of [Real.mo] with another diagonal. *)
Definition mo_other_diagonal : Model R :=
  mkModel
    (mkmat 5 [[7; 0; /2; /2; /2];
              [0; 7; /2; /2; /2];
              [/2; /2; 7; /2; /2];
              [/2; /2; /2; 7; /2];
              [/2; /2; /2; /2; 7]]%R)
    (mkmat 5 [[0; 1; 1; 1; 1];
              [1; 0; 1; 1; 1];
              [1; 1; 0; 1; 1];
              [1; 1; 1; 0; 1];
              [1; 1; 1; 1; 0]]%R)
    (range_index 5).

(** Three samples at the location 0 only. *)
Definition bo_3x1 : Brain R := mkBrain (mkmat 1 [[1]; [3]; [0]]%R) [0%Z].

(** The distances between three locations on a line. *)
Definition D_line : matrix R := mkmat 3 [[0; 1; 2]; [1; 0; 1]; [2; 1; 0]]%R.

(** Three samples against two: the time axes differ. *)
Definition X_3_rows : matrix float := mkmat 2 [[1; 2]; [3; 5]; [0; 1]]%float.
Definition Y_2_rows : matrix float := mkmat 2 [[1; 2]; [3; 5]]%float.

End Samples.

(* ================================================================= *)
(** ** Facts about lists, indices and the error monad *)

Lemma mapM_ok {A B : Type} (f : A -> result B) (g : A -> B) (l : list A) :
  (forall a, In a l -> f a = Ok (g a)) -> mapM f l = Ok (map g l).
Proof.
  induction l as [|a l IH]; intros Hf; simpl; [reflexivity|].
  rewrite (Hf a (or_introl eq_refl)); simpl.
  rewrite IH by (intros; apply Hf; now right).
  reflexivity.
Qed.

Lemma norm_index_in_range (n : nat) (i : Z) :
  (0 <= i < Z.of_nat n)%Z -> norm_index n i = Ok (Z.to_nat i).
Proof.
  intros [H0 H1]; unfold norm_index.
  apply Z.leb_le in H0; apply Z.ltb_lt in H1.
  now rewrite H0, H1.
Qed.

Lemma length_map2 {A B C : Type} (f : A -> B -> C) (xs : list A) (ys : list B) :
  length (map2 f xs ys) = Nat.min (length xs) (length ys).
Proof. unfold map2; now rewrite length_map, length_combine. Qed.

Lemma filter_partition_length {A : Type} (f : A -> bool) (l : list A) :
  length (filter f l) + length (filter (fun x => negb (f x)) l) = length l.
Proof.
  induction l as [|a l IH]; simpl; [reflexivity|].
  destruct (f a); simpl; lia.
Qed.

Lemma StronglySorted_filter {A : Type} (R : A -> A -> Prop) (f : A -> bool) (l : list A) :
  StronglySorted R l -> StronglySorted R (filter f l).
Proof.
  induction 1 as [|a l Hs IH Hall]; simpl; [constructor|].
  destruct (f a); [|assumption].
  constructor; [assumption|].
  rewrite Forall_forall in *; intros x Hx.
  apply filter_In in Hx; apply Hall; tauto.
Qed.

Lemma seq_sorted (s n : nat) : StronglySorted Z.lt (map Z.of_nat (seq s n)).
Proof.
  revert s; induction n as [|n IH]; intros s; simpl; constructor; [apply IH|].
  rewrite Forall_forall; intros x Hx.
  apply in_map_iff in Hx; destruct Hx as [k [<- Hk]].
  apply in_seq in Hk; lia.
Qed.

Lemma range_index_sorted (L : nat) : StronglySorted Z.lt (range_index L).
Proof. apply seq_sorted. Qed.

Lemma in_range_index (L : nat) (i : Z) :
  In i (range_index L) <-> (0 <= i < Z.of_nat L)%Z.
Proof.
  unfold range_index; rewrite in_map_iff; split.
  - intros [k [<- Hk]]; apply in_seq in Hk; lia.
  - intros Hi; exists (Z.to_nat i); split; [lia|apply in_seq; lia].
Qed.

Lemma range_index_NoDup (L : nat) : NoDup (range_index L).
Proof.
  generalize (range_index_sorted L); generalize (range_index L).
  induction 1 as [|a l Hs IH Hall]; constructor; [|assumption].
  intros Ha; rewrite Forall_forall in Hall; specialize (Hall a Ha); lia.
Qed.

Lemma length_range_index (L : nat) : length (range_index L) = L.
Proof. unfold range_index; now rewrite length_map, length_seq. Qed.

Lemma mem_Z (i : Z) (l : list Z) : existsb (Z.eqb i) l = true <-> In i l.
Proof.
  rewrite existsb_exists; split.
  - intros [x [Hx He]]; apply Z.eqb_eq in He; now subst.
  - intros Hi; exists i; split; [assumption|apply Z.eqb_refl].
Qed.

(** [drop] succeeds exactly when every label is in the index. *)
Lemma drop_range_ok (L : nat) (labels : list Z) :
  (forall i, In i labels -> (0 <= i < Z.of_nat L)%Z) ->
  drop labels (range_index L)
  = Ok (filter (fun i => negb (existsb (Z.eqb i) labels)) (range_index L)).
Proof.
  intros Hin; unfold drop.
  replace (forallb _ labels) with true; [reflexivity|].
  symmetry; apply forallb_forall; intros i Hi.
  apply mem_Z, in_range_index, Hin, Hi.
Qed.

Lemma drop_range_KeyError (L : nat) (labels : list Z) :
  (exists i, In i labels /\ (i < 0 \/ Z.of_nat L <= i)%Z) ->
  drop labels (range_index L) = Raise KeyError.
Proof.
  intros [i [Hi Hout]]; unfold drop.
  destruct (forallb _ labels) eqn:E; [|reflexivity].
  rewrite forallb_forall in E; specialize (E i Hi).
  apply mem_Z, in_range_index in E; lia.
Qed.


(* ================================================================= *)
(** ** Facts about arrays *)

Section ArrayFacts.
Context {F : Type} {SF : Scalar F}.
Implicit Types (m a b : matrix F).

Lemma unobserved_sorted (L : nat) (obs : list Z) :
  StronglySorted Z.lt (unobserved L obs).
Proof. apply StronglySorted_filter, range_index_sorted. Qed.

Lemma in_unobserved (L : nat) (obs : list Z) (i : Z) :
  In i (unobserved L obs) <-> (0 <= i < Z.of_nat L)%Z /\ ~ In i obs.
Proof.
  unfold unobserved; rewrite filter_In, in_range_index, negb_true_iff.
  rewrite <- mem_Z; destruct (existsb (Z.eqb i) obs); intuition congruence.
Qed.

Lemma length_unobserved (L : nat) (obs : list Z) :
  NoDup obs -> (forall i, In i obs -> (0 <= i < Z.of_nat L)%Z) ->
  length (unobserved L obs) = L - length obs.
Proof.
  intros Hnd Hin.
  pose proof (filter_partition_length (fun i => existsb (Z.eqb i) obs) (range_index L)) as Hp.
  rewrite length_range_index in Hp.
  assert (Hk : length (filter (fun i => existsb (Z.eqb i) obs) (range_index L)) = length obs).
  { apply Permutation_length, NoDup_Permutation.
    - apply NoDup_filter, range_index_NoDup.
    - assumption.
    - intros i; rewrite filter_In, in_range_index, mem_Z.
      split; [tauto|intros Hi; split; [apply Hin|]; assumption]. }
  unfold unobserved; lia.
Qed.

Lemma unobserved_all (L : nat) (obs : list Z) :
  (forall i, (0 <= i < Z.of_nat L)%Z -> In i obs) -> unobserved L obs = [].
Proof.
  intros Hall. destruct (unobserved L obs) as [|i l] eqn:E; [reflexivity|].
  assert (Hi : In i (unobserved L obs)) by (rewrite E; now left).
  apply in_unobserved in Hi; destruct Hi as [Hr Hn]; exfalso; auto.
Qed.

(** Shapes. *)

Lemma wf_rows m r : wf m = true -> In r (rows m) -> length r = ncols m.
Proof.
  unfold wf; rewrite forallb_forall; intros H Hr; now apply Nat.eqb_eq, H.
Qed.

Lemma wf_intro (c : nat) (rs : list (list F)) :
  (forall r, In r rs -> length r = c) -> wf (mkmat c rs) = true.
Proof.
  intros H; unfold wf; simpl; apply forallb_forall; intros r Hr.
  now apply Nat.eqb_eq, H.
Qed.

Lemma length_column j m : length (column j m) = nrows m.
Proof. unfold column; now rewrite length_map. Qed.

Lemma nrows_transpose m : nrows (transpose m) = ncols m.
Proof. unfold nrows, transpose; simpl; now rewrite length_map, length_seq. Qed.

Lemma ncols_transpose m : ncols (transpose m) = nrows m.
Proof. reflexivity. Qed.

Lemma wf_transpose m : wf (transpose m) = true.
Proof.
  apply wf_intro; intros r Hr; apply in_map_iff in Hr.
  destruct Hr as [j [<- _]]; apply length_column.
Qed.

Lemma nrows_mat_mul a b : nrows (mat_mul a b) = nrows a.
Proof. unfold nrows, mat_mul; simpl; now rewrite length_map. Qed.

Lemma ncols_mat_mul a b : ncols (mat_mul a b) = ncols b.
Proof. reflexivity. Qed.

Lemma wf_mat_mul a b : wf (mat_mul a b) = true.
Proof.
  apply wf_intro; intros r Hr; apply in_map_iff in Hr.
  destruct Hr as [x [<- _]]; now rewrite length_map, length_seq.
Qed.

Lemma nrows_zscore a : nrows (zscore a) = nrows a.
Proof. unfold nrows, zscore; simpl; now rewrite length_map. Qed.

Lemma ncols_zscore a : ncols (zscore a) = ncols a.
Proof. reflexivity. Qed.

Lemma wf_zscore a : wf a = true -> wf (zscore a) = true.
Proof.
  intros Hwf; apply wf_intro; intros r Hr; apply in_map_iff in Hr.
  destruct Hr as [x [<- Hx]].
  rewrite !length_map2, !length_map, length_seq, (wf_rows _ _ Hwf Hx); lia.
Qed.

Lemma nrows_block M (rs cs : list Z) : nrows (block M rs cs) = length rs.
Proof. unfold nrows, block; simpl; now rewrite length_map. Qed.

Lemma ncols_block M (rs cs : list Z) : ncols (block M rs cs) = length cs.
Proof. reflexivity. Qed.

Lemma wf_block M (rs cs : list Z) : wf (block M rs cs) = true.
Proof.
  apply wf_intro; intros r Hr; apply in_map_iff in Hr.
  destruct Hr as [x [<- _]]; now rewrite length_map.
Qed.

Lemma nrows_reconstruct_spec M L obs Yobs P :
  nrows (reconstruct_spec M L obs Yobs P) = nrows Yobs.
Proof.
  unfold reconstruct_spec.
  now rewrite nrows_transpose, ncols_mat_mul, ncols_transpose, nrows_zscore.
Qed.

Lemma ncols_reconstruct_spec M L obs Yobs P :
  ncols (reconstruct_spec M L obs Yobs P) = length (unobserved L obs).
Proof.
  unfold reconstruct_spec, K_ba.
  now rewrite ncols_transpose, !nrows_mat_mul, nrows_block.
Qed.

Lemma shape_squeeze m :
  wf m = true -> shape (squeeze m) = squeeze_shape (nrows m) (ncols m).
Proof.
  intros Hwf; unfold squeeze, squeeze_shape.
  destruct (nrows m) as [|[|t]] eqn:Er; destruct (ncols m) as [|[|c]] eqn:Ec;
    simpl; rewrite ?length_column, ?Er, ?Ec; try reflexivity.
  all: unfold nrows in Er; destruct (rows m) as [|r [|r' rs]] eqn:E; try discriminate.
  all: simpl; f_equal; rewrite <- Ec; apply wf_rows; [assumption|rewrite E; now left].
Qed.

End ArrayFacts.

Section IndexingFacts.
Context {F : Type} {SF : Scalar F}.
Implicit Types (m M : matrix F).

Lemma take_rows_ok m (inds : list Z) :
  (forall i, In i inds -> (0 <= i < Z.of_nat (nrows m))%Z) ->
  take_rows inds m
  = Ok (mkmat (ncols m) (map (fun i => nth (Z.to_nat i) (rows m) []) inds)).
Proof.
  intros Hin; unfold take_rows.
  rewrite (mapM_ok _ (fun i => nth (Z.to_nat i) (rows m) [])); [reflexivity|].
  intros i Hi; now rewrite (norm_index_in_range _ _ (Hin i Hi)).
Qed.

Lemma take_cols_ok m (inds : list Z) :
  (forall i, In i inds -> (0 <= i < Z.of_nat (ncols m))%Z) ->
  take_cols inds m
  = Ok (mkmat (length inds)
          (map (fun r => map (fun i => nth (Z.to_nat i) r fzero) inds) (rows m))).
Proof.
  intros Hin; unfold take_cols.
  rewrite (mapM_ok _ Z.to_nat); [simpl|intros i Hi; now apply norm_index_in_range, Hin].
  do 2 f_equal; apply map_ext; intros r; now rewrite map_map.
Qed.

(** [model[rs, :][:, cs]] is the block of the model on [rs] and [cs]. *)
Lemma rows_then_cols M (rs cs : list Z) :
  (forall i, In i rs -> (0 <= i < Z.of_nat (nrows M))%Z) ->
  (forall j, In j cs -> (0 <= j < Z.of_nat (ncols M))%Z) ->
  (t <- take_rows rs M ;; take_cols cs t) = Ok (block M rs cs).
Proof.
  intros Hr Hc; rewrite (take_rows_ok _ _ Hr); simpl.
  rewrite take_cols_ok by exact Hc; simpl.
  unfold block, entry; now rewrite map_map.
Qed.

(** [model[:, cs][rs, :]] is the same block. *)
Lemma cols_then_rows M (rs cs : list Z) :
  (forall i, In i rs -> (0 <= i < Z.of_nat (nrows M))%Z) ->
  (forall j, In j cs -> (0 <= j < Z.of_nat (ncols M))%Z) ->
  (t <- take_cols cs M ;; take_rows rs t) = Ok (block M rs cs).
Proof.
  intros Hr Hc; rewrite (take_cols_ok _ _ Hc); simpl.
  rewrite take_rows_ok; simpl.
  - unfold block, entry; do 2 f_equal; apply map_ext_in; intros i Hi.
    set (f := fun r : list F => map (fun j => nth (Z.to_nat j) r fzero) cs).
    rewrite (nth_indep _ [] (f [])).
    + now rewrite map_nth.
    + rewrite length_map; specialize (Hr i Hi); unfold nrows in Hr; lia.
  - intros i Hi; unfold nrows; simpl; rewrite length_map; now apply Hr.
Qed.

Lemma entry_finite M (i j : nat) :
  wf M = true -> mat_finite M = true -> i < nrows M -> j < ncols M ->
  is_finite (entry M i j) = true.
Proof.
  intros Hwf Hfin Hi Hj; unfold entry, mat_finite in *.
  rewrite forallb_forall in Hfin.
  assert (Hr : In (nth i (rows M) []) (rows M)) by now apply nth_In.
  specialize (Hfin _ Hr); rewrite forallb_forall in Hfin; apply Hfin.
  apply nth_In; now rewrite (wf_rows _ _ Hwf Hr).
Qed.

Lemma block_finite M (rs cs : list Z) :
  wf M = true -> mat_finite M = true ->
  (forall i, In i rs -> (0 <= i < Z.of_nat (nrows M))%Z) ->
  (forall j, In j cs -> (0 <= j < Z.of_nat (ncols M))%Z) ->
  mat_finite (block M rs cs) = true.
Proof.
  intros Hwf Hfin Hr Hc; unfold mat_finite, block; simpl.
  apply forallb_forall; intros r Hin; apply in_map_iff in Hin.
  destruct Hin as [i [<- Hi]]; apply forallb_forall; intros x Hx.
  apply in_map_iff in Hx; destruct Hx as [j [<- Hj]].
  specialize (Hr i Hi); specialize (Hc j Hj); apply entry_finite; auto; lia.
Qed.

End IndexingFacts.

(* ================================================================= *)
(** ** The conditioning step *)

Section Conditioning.
Context {F : Type} {SF : Scalar F}.
Variable pinv : matrix F -> result (matrix F).

Hypothesis Hshape : pinv_shape pinv.
Hypothesis Hconv : pinv_converges pinv.

Variables (M : matrix F) (L : nat) (bo_sub : Brain F).
Hypothesis Hwf : wf M = true.
Hypothesis Hrows : nrows M = L.
Hypothesis Hcols : ncols M = L.
Hypothesis Hfin : mat_finite M = true.

Let known := locs_index bo_sub.
Let K := length known.

Lemma recon_KeyError :
  (exists i, In i known /\ (i < 0 \/ Z.of_nat L <= i)%Z) ->
  recon_from_model pinv M bo_sub (range_index L) = Raise KeyError.
Proof.
  intros Hout; unfold recon_from_model; cbv zeta; fold known.
  now rewrite (drop_range_KeyError _ _ Hout).
Qed.

Hypothesis Hknown : forall i, In i known -> (0 <= i < Z.of_nat L)%Z.

Lemma pinv_K_aa :
  exists P, pinv (K_aa M known) = Ok P /\
            wf P = true /\ nrows P = K /\ ncols P = K.
Proof.
  destruct (Hconv (K_aa M known)) as [P HP].
  - apply wf_block.
  - apply block_finite; auto; rewrite ?Hrows, ?Hcols; exact Hknown.
  - exists P; split; [assumption|].
    destruct (Hshape _ _ (wf_block _ _ _) HP) as [H1 [H2 H3]].
    unfold K_aa in *; rewrite ncols_block in H2; rewrite nrows_block in H3; auto.
Qed.

(** The code up to the second product. *)
Lemma recon_unfold (P : matrix F) :
  pinv (K_aa M known) = Ok P -> nrows P = K ->
  recon_from_model pinv M bo_sub (range_index L)
  = (est <- dot (mat_mul (K_ba M L known) P) (transpose (zscore (get_data bo_sub))) ;;
     Ok (squeeze (transpose est))).
Proof.
  intros HP HnP; unfold recon_from_model; cbv zeta; fold known.
  rewrite (drop_range_ok _ _ Hknown); simpl.
  fold (unobserved L known).
  assert (HU : forall i, In i (unobserved L known) -> (0 <= i < Z.of_nat (nrows M))%Z).
  { intros i Hi; apply in_unobserved in Hi; rewrite Hrows; tauto. }
  assert (HKr : forall i, In i known -> (0 <= i < Z.of_nat (nrows M))%Z)
    by (rewrite Hrows; exact Hknown).
  assert (HKc : forall i, In i known -> (0 <= i < Z.of_nat (ncols M))%Z)
    by (rewrite Hcols; exact Hknown).
  pose proof (rows_then_cols M _ _ HU HKc) as E1.
  pose proof (cols_then_rows M _ _ HKr HKc) as E2.
  destruct (take_rows (unobserved L known) M) as [t1|]; simpl in E1; [|discriminate].
  simpl; rewrite E1; simpl.
  destruct (take_cols known M) as [t2|]; simpl in E2; [|discriminate].
  simpl; rewrite E2; simpl.
  fold (K_aa M known); rewrite HP; simpl.
  unfold dot at 1; rewrite ncols_block, HnP; fold K; rewrite Nat.eqb_refl; simpl.
  reflexivity.
Qed.

Lemma recon_ValueError :
  ncols (get_data bo_sub) <> K ->
  recon_from_model pinv M bo_sub (range_index L) = Raise ValueError.
Proof.
  intros Hne; destruct pinv_K_aa as [P [HP [_ [HnP HcP]]]].
  rewrite (recon_unfold _ HP HnP); unfold dot.
  rewrite ncols_mat_mul, HcP, nrows_transpose, ncols_zscore.
  destruct (K =? ncols (get_data bo_sub)) eqn:E; [|reflexivity].
  apply Nat.eqb_eq in E; congruence.
Qed.

Hypothesis Hobs : ncols (get_data bo_sub) = K.

Lemma recon_Ok :
  exists P, pinv (K_aa M known) = Ok P /\
    recon_from_model pinv M bo_sub (range_index L)
    = Ok (squeeze (reconstruct_spec M L known (get_data bo_sub) P)).
Proof.
  destruct pinv_K_aa as [P [HP [_ [HnP HcP]]]].
  exists P; split; [assumption|].
  rewrite (recon_unfold _ HP HnP); unfold dot.
  rewrite ncols_mat_mul, HcP, nrows_transpose, ncols_zscore, Hobs, Nat.eqb_refl.
  reflexivity.
Qed.

End Conditioning.

(* ================================================================= *)
(** ** The correlation model from the sufficient statistics *)

Lemma nth_map2 {A B C : Type} (f : A -> B -> C) (xs : list A) (ys : list B)
    (i : nat) (dA : A) (dB : B) (dC : C) :
  i < length xs -> i < length ys ->
  nth i (map2 f xs ys) dC = f (nth i xs dA) (nth i ys dB).
Proof.
  revert ys i; induction xs as [|x xs IH]; intros [|y ys] [|i]; simpl;
    try lia; try reflexivity.
  intros Hx Hy; apply (IH ys i); lia.
Qed.

Lemma nth_eye_mask_row (n i : nat) :
  i < n -> nth i (rows (eye_mask n)) [] = map (fun j => i =? j) (seq 0 n).
Proof.
  intros Hi; unfold eye_mask; simpl.
  set (f := fun i => map (fun j => i =? j) (seq 0 n)).
  rewrite (nth_indep _ [] (f 0)) by now rewrite length_map, length_seq.
  rewrite map_nth, seq_nth by assumption; reflexivity.
Qed.

Lemma broadcast_len_same (n : nat) : broadcast_len n n = Ok n.
Proof. unfold broadcast_len; now rewrite Nat.eqb_refl. Qed.

Lemma stretch_same {A : Type} (d : A) (n : nat) (l : list A) :
  length l = n -> stretch d n l = l.
Proof. intros <-; unfold stretch; now rewrite Nat.eqb_refl. Qed.

Lemma map2_ext_in {A B C : Type} (f g : A -> B -> C) (xs : list A) (ys : list B) :
  (forall a b, In a xs -> In b ys -> f a b = g a b) -> map2 f xs ys = map2 g xs ys.
Proof.
  intros H; unfold map2; apply map_ext_in; intros [a b] Hp; simpl.
  apply H; [eapply in_combine_l|eapply in_combine_r]; exact Hp.
Qed.

(** Two well-formed arrays of one shape are divided entry by entry. *)
Lemma np_divide_same {F : Type} {SF : Scalar F} (a b : matrix F) (L : nat) :
  wf a = true -> wf b = true ->
  nrows a = L -> ncols a = L -> nrows b = L -> ncols b = L ->
  np_divide a b = Ok (mkmat L (map2 (map2 fdiv) (rows a) (rows b))).
Proof.
  intros Ha Hb Har Hac Hbr Hbc; unfold np_divide.
  rewrite Har, Hac, Hbr, Hbc, broadcast_len_same; cbn [bind].
  rewrite !stretch_same by assumption.
  do 2 f_equal; apply map2_ext_in; intros ra rb Hra Hrb.
  rewrite !stretch_same; [reflexivity| |].
  - rewrite <- Hbc; now apply wf_rows.
  - rewrite <- Hac; now apply wf_rows.
Qed.

Section CorrelationModel.
Context {F : Type} {SF : Scalar F}.
Variable z2r : F -> F.
Variables (mo : Model F) (L : nat).
Hypothesis Hnum : wf (numerator mo) = true.
Hypothesis Hden : wf (denominator mo) = true.
Hypothesis Hnr : nrows (numerator mo) = L.
Hypothesis Hnc : ncols (numerator mo) = L.
Hypothesis Hdr : nrows (denominator mo) = L.
Hypothesis Hdc : ncols (denominator mo) = L.

Local Abbreviation model_rows := (model_rows z2r mo L).

Lemma correlation_model_eq :
  correlation_model z2r mo = Ok (mkmat L model_rows).
Proof.
  unfold correlation_model; rewrite (np_divide_same _ _ L) by assumption.
  cbn [bind]; unfold set_where, map_mat, nrows; simpl.
  unfold nrows in Hnr, Hdr.
  rewrite !length_map, length_seq, length_map2, Hnr, Hdr, Nat.min_id, !Nat.eqb_refl.
  reflexivity.
Qed.

Lemma length_model_rows : length model_rows = L.
Proof.
  unfold model_rows, eye_mask; simpl; unfold nrows in Hnr, Hdr.
  rewrite !length_map2, !length_map, length_map2, length_seq, Hnr, Hdr; lia.
Qed.

Lemma quotient_row (i : nat) :
  i < L ->
  nth i (map2 (map2 fdiv) (rows (numerator mo)) (rows (denominator mo))) []
  = map2 fdiv (nth i (rows (numerator mo)) []) (nth i (rows (denominator mo)) []).
Proof.
  intros Hi; unfold nrows in Hnr, Hdr.
  apply (nth_map2 (map2 fdiv)); lia.
Qed.

Lemma length_num_row (i : nat) : i < L -> length (nth i (rows (numerator mo)) []) = L.
Proof.
  intros Hi; rewrite <- Hnc; apply wf_rows; [assumption|].
  apply nth_In; unfold nrows in Hnr; lia.
Qed.

Lemma length_den_row (i : nat) : i < L -> length (nth i (rows (denominator mo)) []) = L.
Proof.
  intros Hi; rewrite <- Hdc; apply wf_rows; [assumption|].
  apply nth_In; unfold nrows in Hdr; lia.
Qed.

Lemma model_row (i : nat) :
  i < L ->
  nth i model_rows []
  = map2 (fun x (b : bool) => if b then fone else x)
      (map z2r (map2 fdiv (nth i (rows (numerator mo)) []) (nth i (rows (denominator mo)) [])))
      (map (fun j => i =? j) (seq 0 L)).
Proof.
  intros Hi; unfold model_rows; unfold nrows in Hnr, Hdr.
  rewrite (nth_map2 _ _ _ _ [] [] []).
  - rewrite nth_eye_mask_row by assumption; f_equal.
    change (@nil F) with (map z2r []) at 1; rewrite map_nth.
    now rewrite quotient_row.
  - rewrite length_map, length_map2; lia.
  - unfold eye_mask; simpl; now rewrite length_map, length_seq.
Qed.

Lemma model_entry (i j : nat) :
  i < L -> j < L ->
  entry (mkmat L model_rows) i j
  = if i =? j then fone
    else z2r (fdiv (entry (numerator mo) i j) (entry (denominator mo) i j)).
Proof.
  intros Hi Hj; unfold entry; simpl; rewrite model_row by assumption.
  pose proof (length_num_row i Hi) as Ln; pose proof (length_den_row i Hi) as Ld.
  rewrite (nth_map2 _ _ _ _ fzero false fzero).
  - rewrite (nth_indep _ false ((fun j => i =? j) 0)) by now rewrite length_map, length_seq.
    rewrite map_nth, seq_nth by assumption; simpl.
    destruct (i =? j); [reflexivity|].
    rewrite (nth_indep _ fzero (z2r fzero)) by (rewrite length_map, length_map2; lia).
    rewrite map_nth; f_equal; apply nth_map2; lia.
  - rewrite length_map, length_map2; lia.
  - now rewrite length_map, length_seq.
Qed.

Lemma wf_model : wf (mkmat L model_rows) = true.
Proof.
  apply wf_intro; intros r Hr.
  destruct (In_nth _ _ [] Hr) as [i [Hi <-]]; rewrite length_model_rows in Hi.
  rewrite model_row by assumption.
  rewrite length_map2, !length_map, length_map2, length_seq.
  rewrite (length_num_row i Hi), (length_den_row i Hi); lia.
Qed.

End CorrelationModel.

(* ================================================================= *)
(** ** The Newton-Schulz pseudo-inverse meets what is assumed of [pinv] *)

Section NewtonFacts.
Context {F : Type} {SF : Scalar F}.

Lemma newton_step_shape (a x : matrix F) :
  wf x = true ->
  wf (newton_step a x) = true /\ nrows (newton_step a x) = nrows x /\
  ncols (newton_step a x) = ncols x.
Proof.
  intros Hx; unfold newton_step, mat_sub, map_mat; simpl; repeat split.
  - apply wf_intro; intros r Hr; unfold map2 at 1 in Hr.
    apply in_map_iff in Hr; destruct Hr as [[r1 r2] [<- Hp]]; simpl.
    pose proof (in_combine_l _ _ _ _ Hp) as H1.
    pose proof (in_combine_r _ _ _ _ Hp) as H2.
    apply in_map_iff in H1; destruct H1 as [r0 [<- H0]].
    apply in_map_iff in H2; destruct H2 as [r3 [<- _]].
    rewrite length_map2, !length_map, length_seq, (wf_rows _ _ Hx H0); lia.
  - unfold nrows; simpl; rewrite length_map2, !length_map; lia.
Qed.

Lemma newton_iter_shape (a x : matrix F) (n : nat) :
  wf x = true ->
  wf (Nat.iter n (newton_step a) x) = true /\
  nrows (Nat.iter n (newton_step a) x) = nrows x /\
  ncols (Nat.iter n (newton_step a) x) = ncols x.
Proof.
  intros Hx; induction n as [|n [IH1 [IH2 IH3]]]; simpl; [auto|].
  destruct (newton_step_shape a _ IH1) as [H1 [H2 H3]].
  repeat split; [assumption|congruence|congruence].
Qed.

Lemma wf_map_mat (f : F -> F) (m : matrix F) : wf m = true -> wf (map_mat f m) = true.
Proof.
  intros Hm; apply wf_intro; intros r Hr; apply in_map_iff in Hr.
  destruct Hr as [r0 [<- H0]]; rewrite length_map; now apply wf_rows.
Qed.

Lemma newton_schulz_shape (n : nat) (a : matrix F) :
  wf (newton_schulz n a) = true /\ nrows (newton_schulz n a) = ncols a /\
  ncols (newton_schulz n a) = nrows a.
Proof.
  unfold newton_schulz.
  destruct (fltb fzero _).
  - set (x0 := map_mat _ (transpose a)).
    assert (H0 : wf x0 = true) by apply wf_map_mat, wf_transpose.
    destruct (newton_iter_shape a x0 n H0) as [H1 [H2 H3]].
    repeat split; [assumption| |assumption].
    rewrite H2; unfold x0, nrows, map_mat; simpl; now rewrite !length_map, length_seq.
  - repeat split; [apply wf_transpose|apply nrows_transpose].
Qed.

Lemma pinv_newton_shape : pinv_shape (pinv_newton (F := F)).
Proof.
  intros a p _ Hp; unfold pinv_newton in Hp.
  destruct (mat_finite a); [|discriminate].
  inversion Hp; subst; apply newton_schulz_shape.
Qed.

Lemma pinv_newton_converges : pinv_converges (pinv_newton (F := F)).
Proof.
  intros a _ Hfin; unfold pinv_newton; rewrite Hfin; eauto.
Qed.

End NewtonFacts.

(* ================================================================= *)
(** ** binary64: a NaN operand makes the result NaN *)

Section FloatFacts.
Local Open Scope float_scope.

Lemma mul_nan_r (x : float) : x * nan = nan.
Proof.
  apply Prim2SF_inj; rewrite mul_spec.
  change (Prim2SF nan) with S754_nan.
  unfold SF64mul, SFmul; destruct (Prim2SF x); reflexivity.
Qed.

Lemma add_nan_r (x : float) : x + nan = nan.
Proof.
  apply Prim2SF_inj; rewrite add_spec.
  change (Prim2SF nan) with S754_nan.
  unfold SF64add, SFadd; destruct (Prim2SF x); reflexivity.
Qed.

Lemma fold_dot_nan (l : list (float * float)) (acc : float) :
  l <> [] -> (forall p, In p l -> snd p = nan) ->
  fold_left (fun acc p => fadd acc (fmul (fst p) (snd p))) l acc = nan.
Proof.
  revert acc; induction l as [|p l IH]; intros acc Hne Hall; [congruence|].
  simpl; rewrite (Hall p (or_introl eq_refl)), mul_nan_r, add_nan_r.
  destruct l as [|q l]; [reflexivity|].
  apply IH; [discriminate|intros; apply Hall; now right].
Qed.

Lemma dotprod_nan (xs ys : list float) :
  xs <> [] -> ys <> [] -> (forall y, In y ys -> y = nan) -> dotprod xs ys = nan.
Proof.
  intros Hx Hy Hall; unfold dotprod; apply fold_dot_nan.
  - destruct xs, ys; simpl; congruence.
  - intros [a b] Hp; apply in_combine_r in Hp; simpl; now apply Hall.
Qed.

(** [A . B] when every entry of [B] is NaN. *)
Lemma mat_mul_nan (A B : matrix float) :
  (forall r, In r (rows A) -> r <> []) ->
  rows B <> [] ->
  (forall r y, In r (rows B) -> In y r -> y = nan) ->
  wf B = true ->
  mat_mul A B = mkmat (ncols B) (map (fun _ => repeat nan (ncols B)) (rows A)).
Proof.
  intros HA HB Hnan Hwf; unfold mat_mul; f_equal.
  apply map_ext_in; intros r Hr.
  rewrite <- (length_seq (ncols B) 0) at 2; rewrite <- map_const.
  apply map_ext_in; intros j Hj; apply in_seq in Hj.
  apply dotprod_nan; [now apply HA| |].
  - unfold column; destruct (rows B); simpl; congruence.
  - intros y Hy; unfold column in Hy; apply in_map_iff in Hy.
    destruct Hy as [rb [<- Hrb]]; apply (Hnan rb); [assumption|].
    apply nth_In; rewrite (wf_rows _ _ Hwf Hrb); lia.
Qed.

End FloatFacts.

(* ================================================================= *)
(** ** Rows and columns of the estimate *)

Lemma nth_map_lt {A B : Type} (f : A -> B) (l : list A) (i : nat) (d : A) (d' : B) :
  i < length l -> nth i (map f l) d' = f (nth i l d).
Proof.
  intros Hi; rewrite (nth_indep _ d' (f d)) by now rewrite length_map.
  apply map_nth.
Qed.

Lemma map_nth_seq {A : Type} (l : list A) (d : A) :
  map (fun t => nth t l d) (seq 0 (length l)) = l.
Proof.
  apply (nth_ext _ _ d d).
  - now rewrite length_map, length_seq.
  - intros n Hn; rewrite length_map, length_seq in Hn.
    rewrite (nth_map_lt (fun t => nth t l d) _ _ 0) by now rewrite length_seq.
    now rewrite seq_nth.
Qed.

Section EstimateFacts.
Context {F : Type} {SF : Scalar F}.
Implicit Types (A B M P : matrix F).

Lemma column_transpose B (j : nat) :
  wf B = true -> j < nrows B -> column j (transpose B) = nth j (rows B) [].
Proof.
  intros Hwf Hj; unfold column at 1, transpose; simpl; rewrite map_map.
  assert (Hr : In (nth j (rows B) []) (rows B)) by now apply nth_In.
  rewrite <- (map_nth_seq (nth j (rows B) []) fzero).
  rewrite (wf_rows _ _ Hwf Hr); apply map_ext; intros t; unfold column.
  now apply (nth_map_lt (fun r => nth t r fzero)).
Qed.

Lemma row_mat_mul A B (j : nat) :
  j < nrows A ->
  nth j (rows (mat_mul A B)) []
  = map (fun t => dotprod (nth j (rows A) []) (column t B)) (seq 0 (ncols B)).
Proof.
  intros Hj; unfold mat_mul; simpl.
  now apply (nth_map_lt (fun r => map (fun t => dotprod r (column t B)) (seq 0 (ncols B)))).
Qed.

Lemma row_block M (rs cs : list Z) (j : nat) :
  j < length rs ->
  nth j (rows (block M rs cs)) []
  = map (fun c => entry M (Z.to_nat (nth j rs 0%Z)) (Z.to_nat c)) cs.
Proof.
  intros Hj; unfold block; simpl.
  now apply (nth_map_lt (fun i => map (fun c => entry M (Z.to_nat i) (Z.to_nat c)) cs)).
Qed.

(** Column [j] of the estimate is the estimate at the [j]-th unobserved
    location. *)
Lemma column_reconstruct_spec M (L : nat) (obs : list Z) (Yobs P : matrix F) (j : nat) :
  j < length (unobserved L obs) ->
  column j (reconstruct_spec M L obs Yobs P)
  = location_estimate M (nth j (unobserved L obs) 0%Z) obs Yobs P.
Proof.
  intros Hj; unfold reconstruct_spec, K_ba.
  rewrite column_transpose;
    [|apply wf_mat_mul|now rewrite !nrows_mat_mul, nrows_block].
  rewrite row_mat_mul by now rewrite nrows_mat_mul, nrows_block.
  rewrite row_mat_mul by now rewrite nrows_block.
  rewrite row_block by assumption.
  unfold location_estimate, weights.
  now rewrite ncols_transpose, nrows_zscore.
Qed.

(** With no unobserved location the estimate has [T] empty rows. *)
Lemma reconstruct_spec_empty M (L : nat) (obs : list Z) (Yobs P : matrix F) :
  unobserved L obs = [] ->
  reconstruct_spec M L obs Yobs P = mkmat 0 (repeat [] (nrows Yobs)).
Proof.
  intros HU; unfold reconstruct_spec, K_ba; rewrite HU.
  unfold transpose at 1; f_equal.
  rewrite ncols_mat_mul, ncols_transpose, nrows_zscore.
  transitivity (map (fun _ : nat => @nil F) (seq 0 (nrows Yobs)));
    [apply map_ext; reflexivity|now rewrite map_const, length_seq].
Qed.



End EstimateFacts.

(* ================================================================= *)
(** ** Multiplying by the identity, in exact arithmetic *)

Section Semiring.
Context {F : Type} {SF : Scalar F}.
Hypothesis add_0_l : forall x : F, fadd fzero x = x.
Hypothesis add_0_r : forall x : F, fadd x fzero = x.
Hypothesis mul_0_r : forall x : F, fmul x fzero = fzero.
Hypothesis mul_1_r : forall x : F, fmul x fone = x.





End Semiring.

(* ================================================================= *)
(** ** The correlation metric, column by column *)

Lemma mapM_total {A B : Type} (f : A -> result B) (l : list A) (d : A) (d' : B) :
  (forall a, In a l -> exists b, f a = Ok b) ->
  exists bs, mapM f l = Ok bs /\ length bs = length l /\
             forall i, i < length l -> f (nth i l d) = Ok (nth i bs d').
Proof.
  induction l as [|a l IH]; intros Hf.
  - exists []; simpl; repeat split; intros; lia.
  - destruct (Hf a (or_introl eq_refl)) as [b Hb].
    destruct IH as [bs [Hm [Hl Hn]]]; [intros; apply Hf; now right|].
    exists (b :: bs); simpl; rewrite Hb, Hm; simpl; repeat split; [lia|].
    intros [|i] Hi; [assumption|apply Hn; lia].
Qed.

Lemma nth_combine_lt {A B : Type} (l : list A) (l' : list B) (i : nat) (d : A) (d' : B) :
  i < length l -> i < length l' ->
  nth i (combine l l') (d, d') = (nth i l d, nth i l' d').
Proof.
  revert l' i; induction l as [|a l IH]; intros [|b l'] [|i]; simpl; try lia;
    try reflexivity.
  intros H1 H2; apply IH; lia.
Qed.

Section CorrFacts.
Context {F : Type} {SF : Scalar F}.

Lemma pearsonr_total (x y : list F) :
  length x = length y -> exists r, pearsonr x y = Ok r.
Proof.
  intros Hl; unfold pearsonr, np_multiply.
  rewrite !length_map, Hl, broadcast_len_same; simpl; eauto.
Qed.

Lemma rows_transpose_nth (X : matrix F) (i : nat) :
  i < ncols X -> nth i (rows (transpose X)) [] = column i X.
Proof.
  intros Hi; unfold transpose; simpl.
  rewrite (nth_map_lt (fun j => column j X) _ _ 0) by now rewrite length_seq.
  now rewrite seq_nth.
Qed.

Lemma in_rows_transpose (X : matrix F) (c : list F) :
  In c (rows (transpose X)) -> length c = nrows X.
Proof.
  unfold transpose; simpl; intros Hc; apply in_map_iff in Hc.
  destruct Hc as [j [<- _]]; apply length_column.
Qed.

(** What [corr] returns on two arrays with the same number of rows. *)
Lemma corr_columns (X Y : matrix F) :
  nrows X = nrows Y ->
  exists rs, corr X Y = Ok (Arr1 rs) /\
             length rs = Nat.min (ncols X) (ncols Y) /\
             forall i, i < Nat.min (ncols X) (ncols Y) ->
                       pearsonr (column i X) (column i Y) = Ok (nth i rs fzero).
Proof.
  intros HT; unfold corr.
  set (l := combine (rows (transpose X)) (rows (transpose Y))).
  assert (Hlen : length l = Nat.min (ncols X) (ncols Y)).
  { unfold l; rewrite length_combine; fold (nrows (transpose X)) (nrows (transpose Y)).
    now rewrite !nrows_transpose. }
  destruct (mapM_total (fun p => pearsonr (fst p) (snd p)) l ([], []) fzero)
    as [rs [Hm [Hl Hn]]].
  - intros [cx cy] Hp; simpl; apply pearsonr_total.
    rewrite (in_rows_transpose X cx (in_combine_l _ _ _ _ Hp)).
    rewrite (in_rows_transpose Y cy (in_combine_r _ _ _ _ Hp)); assumption.
  - exists rs; rewrite Hm; simpl; repeat split; [congruence|].
    intros i Hi; rewrite <- Hn by lia.
    assert (Hx : i < length (rows (transpose X)))
      by (fold (nrows (transpose X)); rewrite nrows_transpose; lia).
    assert (Hy : i < length (rows (transpose Y)))
      by (fold (nrows (transpose Y)); rewrite nrows_transpose; lia).
    unfold l; rewrite (nth_combine_lt _ _ _ _ _ Hx Hy).
    cbn [fst snd]; rewrite !rows_transpose_nth by lia; reflexivity.
Qed.

End CorrFacts.

(* ================================================================= *)
(** ** Exact arithmetic: the correlation of a column with itself *)

Section RealFacts.
Local Open Scope R_scope.

Lemma fold_Rplus_ge (l : list R) (acc : R) :
  Forall (fun x => 0 <= x) l -> acc <= fold_left Rplus l acc.
Proof.
  revert acc; induction l as [|x l IH]; intros acc Hall; simpl; [lra|].
  inversion Hall; subst; specialize (IH (acc + x) H2); lra.
Qed.

Lemma fold_Rplus_In (l : list R) (acc x : R) :
  Forall (fun x => 0 <= x) l -> In x l -> acc + x <= fold_left Rplus l acc.
Proof.
  revert acc; induction l as [|y l IH]; intros acc Hall [].
  - subst y; simpl; inversion Hall; subst; now apply fold_Rplus_ge.
  - simpl; inversion Hall; subst; specialize (IH (acc + y) H3 H); lra.
Qed.

Lemma squares_nonneg (xs : list R) : Forall (fun x => 0 <= x) (map (fun x => x * x) xs).
Proof.
  apply Forall_forall; intros y Hy; apply in_map_iff in Hy.
  destruct Hy as [x [<- _]]; nra.
Qed.


(** A column that takes two different values has a positive centred sum
    of squares, whatever the centre. *)
Lemma sum_of_squares_pos (xs : list R) (m a b : R) :
  In a xs -> In b xs -> a <> b -> 0 < sum_of_squares (map (fun v => v - m) xs).
Proof.
  intros Ha Hb Hab.
  assert (Hx : exists x, In x xs /\ x <> m).
  { destruct (Req_dec a m) as [E|E]; [exists b; split; [assumption|congruence]|eauto]. }
  destruct Hx as [x [Hx Hxm]].
  assert (Hin : In ((x - m) * (x - m)) (map (fun x => x * x) (map (fun v => v - m) xs))).
  { apply in_map_iff; exists (x - m); split; [reflexivity|].
    apply in_map_iff; eauto. }
  pose proof (fold_Rplus_In _ 0 _ (squares_nonneg _) Hin) as Hge.
  unfold sum_of_squares, np_sum; simpl.
  assert (0 < (x - m) * (x - m)) by nra.
  lra.
Qed.



Lemma tanh_zero : tanh (0 / 1) = 0.
Proof.
  replace (0 / 1) with 0 by field.
  unfold tanh; rewrite sinh_0; unfold Rdiv; apply Rmult_0_l.
Qed.

End RealFacts.

(* ================================================================= *)
(** ** recon_no_expand on a model of [L] locations *)

Section WholeRoutine.
Context {F : Type} {SF : Scalar F}.
Variable z2r : F -> F.
Variable pinv : matrix F -> result (matrix F).
Hypothesis Hshape : pinv_shape pinv.
Hypothesis Hconv : pinv_converges pinv.

Variables (mo : Model F) (bo_sub : Brain F) (M : matrix F) (L : nat).
Hypothesis HM : correlation_model z2r mo = Ok M.
Hypothesis Hwf : wf M = true.
Hypothesis Hrows : nrows M = L.
Hypothesis Hcols : ncols M = L.
Hypothesis Hfin : mat_finite M = true.
Hypothesis Hidx : mo_locs_index mo = range_index L.

Lemma recon_no_expand_from :
  recon_no_expand z2r pinv bo_sub mo = recon_from_model pinv M bo_sub (range_index L).
Proof. unfold recon_no_expand; now rewrite HM, Hidx. Qed.

Lemma recon_no_expand_Ok :
  (forall i, In i (locs_index bo_sub) -> (0 <= i < Z.of_nat L)%Z) ->
  ncols (get_data bo_sub) = length (locs_index bo_sub) ->
  exists P, pinv (K_aa M (locs_index bo_sub)) = Ok P /\
    recon_no_expand z2r pinv bo_sub mo
    = Ok (squeeze (reconstruct_spec M L (locs_index bo_sub) (get_data bo_sub) P)).
Proof.
  intros Hknown Hobs; rewrite recon_no_expand_from.
  now apply recon_Ok.
Qed.


End WholeRoutine.

Lemma squeeze_id {F : Type} {SF : Scalar F} (X : matrix F) :
  nrows X <> 1 -> ncols X <> 1 -> squeeze X = Arr2 X.
Proof.
  unfold squeeze; destruct (nrows X) as [|[|t]]; destruct (ncols X) as [|[|c]];
    intros; try reflexivity; congruence.
Qed.

(* ================================================================= *)
(** ** The properties of the specification *)

Section Properties.
Context {F : Type} {SF : Scalar F}.
Variable z2r : F -> F.
Variable pinv : matrix F -> result (matrix F).
Hypothesis Hshape : pinv_shape pinv.
Hypothesis Hconv : pinv_converges pinv.

(** C1, as amended.  On a model [M] of [L] locations, [K < L] distinct
    observed indices in [0, L) and a [T x K] observation, [recon_no_expand]
    returns [np.squeeze] of the matrix [K_ba . pinv(K_aa) . Y^T] transposed
    back to [T x (L-K)], with [K_ba = M[U, observed]],
    [K_aa = M[observed, observed]] and [Y] the standardized observation:
    the matrix itself when [T <> 1] and [L - K <> 1]. *)
Theorem recon_no_expand_estimate (mo : Model F) (bo_sub : Brain F) (M : matrix F) (L : nat) :
  correlation_model z2r mo = Ok M ->
  wf M = true -> nrows M = L -> ncols M = L -> mat_finite M = true ->
  mo_locs_index mo = range_index L ->
  NoDup (locs_index bo_sub) ->
  (forall i, In i (locs_index bo_sub) -> (0 <= i < Z.of_nat L)%Z) ->
  length (locs_index bo_sub) < L ->
  ncols (get_data bo_sub) = length (locs_index bo_sub) ->
  exists P,
    pinv (K_aa M (locs_index bo_sub)) = Ok P /\
    recon_no_expand z2r pinv bo_sub mo
    = Ok (squeeze (reconstruct_spec M L (locs_index bo_sub) (get_data bo_sub) P)) /\
    (nrows (get_data bo_sub) <> 1 -> L - length (locs_index bo_sub) <> 1 ->
     recon_no_expand z2r pinv bo_sub mo
     = Ok (Arr2 (reconstruct_spec M L (locs_index bo_sub) (get_data bo_sub) P))).
Proof.
  intros HM Hwf Hr Hc Hfin Hidx Hnd Hin HK Hobs.
  destruct (recon_no_expand_Ok z2r pinv Hshape Hconv mo bo_sub M L HM Hwf Hr Hc Hfin Hidx Hin Hobs)
    as [P [HP Heq]].
  exists P; repeat split; [assumption..|].
  intros HT HU; rewrite Heq, squeeze_id; [reflexivity| |].
  - now rewrite nrows_reconstruct_spec.
  - now rewrite ncols_reconstruct_spec, length_unobserved.
Qed.

(** C2, as amended.  On a valid input the unknown indices the code
    computes are the indices of [0, L) that were not observed, in strictly
    ascending order; the result has the shape [(T, L-K)] with the axes of
    length one removed -- exactly [T] rows and [L-K] columns when
    [T <> 1] and [L - K <> 1] -- and its column [j] is the estimate at the
    [j]-th unknown index. *)
Theorem recon_no_expand_shape (mo : Model F) (bo_sub : Brain F) (M : matrix F) (L : nat) :
  correlation_model z2r mo = Ok M ->
  wf M = true -> nrows M = L -> ncols M = L -> mat_finite M = true ->
  mo_locs_index mo = range_index L ->
  NoDup (locs_index bo_sub) ->
  (forall i, In i (locs_index bo_sub) -> (0 <= i < Z.of_nat L)%Z) ->
  length (locs_index bo_sub) < L ->
  ncols (get_data bo_sub) = length (locs_index bo_sub) ->
  let known := locs_index bo_sub in
  let T := nrows (get_data bo_sub) in
  exists U r P,
    drop known (mo_locs_index mo) = Ok U /\
    StronglySorted Z.lt U /\
    length U = L - length known /\
    (forall i, In i U <-> (0 <= i < Z.of_nat L)%Z /\ ~ In i known) /\
    pinv (K_aa M known) = Ok P /\
    recon_no_expand z2r pinv bo_sub mo = Ok r /\
    shape r = squeeze_shape T (L - length known) /\
    (T <> 1 -> L - length known <> 1 ->
     exists X, r = Arr2 X /\ nrows X = T /\ ncols X = L - length known /\
               forall j, j < L - length known ->
                         column j X
                         = location_estimate M (nth j U 0%Z) known (get_data bo_sub) P).
Proof.
  intros HM Hwf Hr Hc Hfin Hidx Hnd Hin HK Hobs known T.
  destruct (recon_no_expand_Ok z2r pinv Hshape Hconv mo bo_sub M L HM Hwf Hr Hc Hfin Hidx Hin Hobs)
    as [P [HP Heq]].
  set (X := reconstruct_spec M L known (get_data bo_sub) P).
  assert (HnX : nrows X = T) by apply nrows_reconstruct_spec.
  assert (HcX : ncols X = L - length known)
    by (unfold X; now rewrite ncols_reconstruct_spec, length_unobserved).
  exists (unobserved L known), (squeeze X), P.
  split; [rewrite Hidx; now apply drop_range_ok|].
  split; [apply unobserved_sorted|].
  split; [now apply length_unobserved|].
  split; [apply in_unobserved|].
  split; [assumption|].
  split; [assumption|].
  split; [rewrite shape_squeeze, HnX, HcX; [reflexivity|apply wf_transpose]|].
  intros HT HU; exists X; rewrite squeeze_id by congruence.
  repeat split; try assumption.
  intros j Hj; apply column_reconstruct_spec.
  now rewrite length_unobserved.
Qed.



End Properties.

(** C3.  From sufficient statistics of shape [L x L], lines 205-206 build
    [z2r(numerator / denominator)] elementwise and then set the diagonal:
    the model used for the conditioning has exactly [1] at every diagonal
    index and the transformed quotient everywhere else. *)
Theorem correlation_model_unit_diagonal {F : Type} {SF : Scalar F}
    (z2r : F -> F) (mo : Model F) (L : nat) :
  wf (numerator mo) = true -> wf (denominator mo) = true ->
  nrows (numerator mo) = L -> ncols (numerator mo) = L ->
  nrows (denominator mo) = L -> ncols (denominator mo) = L ->
  exists M,
    correlation_model z2r mo = Ok M /\
    wf M = true /\ nrows M = L /\ ncols M = L /\
    (forall i, i < L -> entry M i i = fone) /\
    (forall i j, i < L -> j < L -> i <> j ->
                 entry M i j
                 = z2r (fdiv (entry (numerator mo) i j) (entry (denominator mo) i j))).
Proof.
  intros Hn Hd Hnr Hnc Hdr Hdc.
  exists (mkmat L (model_rows z2r mo L)).
  split; [now apply correlation_model_eq|].
  split; [now apply wf_model|].
  split; [now apply length_model_rows|].
  split; [reflexivity|].
  split.
  - intros i Hi; rewrite (model_entry z2r mo L Hn Hd Hnr Hnc Hdr Hdc i i Hi Hi).
    now rewrite Nat.eqb_refl.
  - intros i j Hi Hj Hij; rewrite (model_entry z2r mo L Hn Hd Hnr Hnc Hdr Hdc i j Hi Hj).
    apply Nat.eqb_neq in Hij; now rewrite Hij.
Qed.

(* ================================================================= *)
(** ** The properties on the real model *)

Lemma mat_finite_R (m : matrix R) : mat_finite m = true.
Proof.
  unfold mat_finite; apply forallb_forall; intros r _.
  apply forallb_forall; intros x _; reflexivity.
Qed.

Lemma Real_model : correlation_model tanh Real.mo = Ok Real.M.
Proof. now apply correlation_model_eq. Qed.

Lemma Real_model_wf : wf Real.M = true.
Proof. now apply wf_model. Qed.

Lemma NoDup_01 : NoDup [0%Z; 1%Z].
Proof. repeat constructor; simpl; intuition lia. Qed.

Lemma in_01 (i : Z) : In i [0%Z; 1%Z] -> (0 <= i < Z.of_nat 5)%Z.
Proof. simpl; intuition lia. Qed.

Lemma recon_no_expand_estimate_witness :
  exists P,
    recon_no_expand tanh Real.pinv Real.bo_3x2 Real.mo
    = Ok (Arr2 (reconstruct_spec Real.M 5 [0%Z; 1%Z] (get_data Real.bo_3x2) P)).
Proof.
  destruct (recon_no_expand_estimate tanh Real.pinv
              pinv_newton_shape pinv_newton_converges Real.mo Real.bo_3x2 Real.M 5
              Real_model Real_model_wf eq_refl eq_refl (mat_finite_R _) eq_refl
              NoDup_01 in_01 ltac:(unfold Real.bo_3x2; simpl; lia) eq_refl)
    as [P [_ [_ H]]].
  exists P; apply H; unfold Real.bo_3x2, nrows, get_data; simpl; lia.
Defined.

(** C1 as stated fails when one location is left: the result of
    [np.squeeze] has one axis, it is not the [T x (L-K)] matrix. *)
Lemma recon_no_expand_not_a_matrix :
  exists r,
    recon_no_expand tanh Real.pinv Real.bo_3x4 Real.mo = Ok r /\
    shape r = [3] /\
    ~ (exists P, r = Arr2 (reconstruct_spec Real.M 5 (locs_index Real.bo_3x4)
                             (get_data Real.bo_3x4) P)).
Proof.
  destruct (recon_no_expand_Ok tanh Real.pinv pinv_newton_shape pinv_newton_converges
              Real.mo Real.bo_3x4 Real.M 5 Real_model Real_model_wf eq_refl eq_refl
              (mat_finite_R _) eq_refl) as [P [_ Heq]];
    [simpl; intuition lia|reflexivity|].
  eexists; split; [exact Heq|].
  assert (Hs : shape (squeeze (reconstruct_spec Real.M 5 (locs_index Real.bo_3x4)
                                 (get_data Real.bo_3x4) P)) = [3]).
  { rewrite shape_squeeze by apply wf_transpose.
    now rewrite nrows_reconstruct_spec, ncols_reconstruct_spec. }
  split; [exact Hs|].
  intros [P' HP']; rewrite HP' in Hs; discriminate.
Qed.

Lemma recon_no_expand_shape_witness :
  exists r, recon_no_expand tanh Real.pinv Real.bo_3x2 Real.mo = Ok r /\ shape r = [3; 3].
Proof.
  destruct (recon_no_expand_shape tanh Real.pinv
              pinv_newton_shape pinv_newton_converges Real.mo Real.bo_3x2 Real.M 5
              Real_model Real_model_wf eq_refl eq_refl (mat_finite_R _) eq_refl
              NoDup_01 in_01 ltac:(unfold Real.bo_3x2; simpl; lia) eq_refl)
    as [U [r [P [_ [_ [_ [_ [_ [Hr [Hs _]]]]]]]]]].
  exists r; split; [exact Hr|exact Hs].
Defined.

(** C2 as stated fails on a single time sample, and when a single location
    is left: the result has one axis, not the shape [(T, L-K)]. *)
Lemma recon_no_expand_one_sample :
  (exists r,
     recon_no_expand tanh Real.pinv Real.bo_1x2 Real.mo = Ok r /\
     shape r = [3] /\ shape r <> [1; 3])
  /\
  (exists r,
     recon_no_expand tanh Real.pinv Real.bo_3x4 Real.mo = Ok r /\
     shape r = [3] /\ shape r <> [3; 1]).
Proof.
  split.
  - destruct (recon_no_expand_Ok tanh Real.pinv pinv_newton_shape pinv_newton_converges
                Real.mo Real.bo_1x2 Real.M 5 Real_model Real_model_wf eq_refl eq_refl
                (mat_finite_R _) eq_refl in_01 eq_refl) as [P [_ Heq]].
    eexists; split; [exact Heq|].
    assert (Hs : shape (squeeze (reconstruct_spec Real.M 5 (locs_index Real.bo_1x2)
                                   (get_data Real.bo_1x2) P)) = [3]).
    { rewrite shape_squeeze by apply wf_transpose.
      now rewrite nrows_reconstruct_spec, ncols_reconstruct_spec. }
    split; [exact Hs|rewrite Hs; discriminate].
  - destruct (recon_no_expand_Ok tanh Real.pinv pinv_newton_shape pinv_newton_converges
                Real.mo Real.bo_3x4 Real.M 5 Real_model Real_model_wf eq_refl eq_refl
                (mat_finite_R _) eq_refl) as [P [_ Heq]];
      [simpl; intuition lia|reflexivity|].
    eexists; split; [exact Heq|].
    assert (Hs : shape (squeeze (reconstruct_spec Real.M 5 (locs_index Real.bo_3x4)
                                   (get_data Real.bo_3x4) P)) = [3]).
    { rewrite shape_squeeze by apply wf_transpose.
      now rewrite nrows_reconstruct_spec, ncols_reconstruct_spec. }
    split; [exact Hs|rewrite Hs; discriminate].
Qed.

Lemma correlation_model_unit_diagonal_witness :
  exists M,
    correlation_model tanh Real.mo = Ok M /\
    entry M 0 0 = 1%R /\ entry M 4 4 = 1%R /\ entry M 0 2 = tanh (/ 2 / 1).
Proof.
  destruct (correlation_model_unit_diagonal tanh Real.mo 5
              eq_refl eq_refl eq_refl eq_refl eq_refl eq_refl)
    as [M [HM [_ [_ [_ [Hd Ho]]]]]].
  exists M; split; [exact HM|].
  split; [apply Hd; lia|].
  split; [apply Hd; lia|].
  rewrite Ho by lia; reflexivity.
Defined.



(* ================================================================= *)
(** ** Rank deficiency, constant columns and the identity block *)


Section IdentityBlock.
Context {F : Type} {SF : Scalar F}.
Variable z2r : F -> F.
Variable pinv : matrix F -> result (matrix F).
Hypothesis add_0_l : forall x : F, fadd fzero x = x.
Hypothesis add_0_r : forall x : F, fadd x fzero = x.
Hypothesis mul_0_r : forall x : F, fmul x fzero = fzero.
Hypothesis mul_1_r : forall x : F, fmul x fone = x.


End IdentityBlock.



(* ================================================================= *)
(** ** The properties on binary64 arrays *)

Section Float64Facts.
Import Float64.
Local Open Scope float_scope.


(** The standardized all-zero observation: every entry is 0/0. *)
Lemma zscore_zeros :
  transpose (zscore (get_data bo_zeros)) = mkmat 10 [repeat nan 10; repeat nan 10].
Proof. vm_compute; reflexivity. Qed.

Lemma in_01_5 (i : Z) : In i (locs_index bo_zeros) -> (0 <= i < Z.of_nat 5)%Z.
Proof. simpl; intuition lia. Qed.

End Float64Facts.

(** C7, as amended.  For [L = 5], the observed indices [0, 1], the model with
    unit diagonal and 0.5 elsewhere and the 10 x 2 observation of zeros, the
    conditioning returns a 10 x 3 array of which every entry is NaN, whatever
    [pinv] returns: standardizing a column of zeros divides zero by zero. *)
Theorem recon_zero_observation (pinv : matrix float -> result (matrix float)) :
  pinv_shape pinv -> pinv_converges pinv ->
  recon_from_model pinv Float64.model_5 Float64.bo_zeros (range_index 5)
  = Ok (Arr2 Float64.nan_10x3).
Proof.
  intros Hshape Hconv.
  destruct (recon_Ok pinv Hshape Hconv Float64.model_5 5 Float64.bo_zeros
              eq_refl eq_refl eq_refl eq_refl in_01_5 eq_refl) as [P [HP Heq]].
  destruct (Hshape _ _ (wf_block _ _ _) HP) as [HwP [HnP HcP]].
  rewrite Heq; f_equal; unfold reconstruct_spec; rewrite zscore_zeros.
  rewrite mat_mul_nan.
  - unfold mat_mul; cbn [rows]; rewrite map_map; vm_compute; reflexivity.
  - intros r Hr Hnil; subst r.
    pose proof (wf_rows _ _ (wf_mat_mul _ _) Hr) as Hl.
    rewrite ncols_mat_mul, HcP in Hl; discriminate.
  - discriminate.
  - intros r y Hr Hy; simpl in Hr; destruct Hr as [<-|[<-|[]]];
      simpl in Hy; repeat (destruct Hy as [Hy|Hy]; [now symmetry|]); contradiction.
  - reflexivity.
Qed.

Lemma recon_zero_observation_witness :
  recon_from_model Float64.pinv Float64.model_5 Float64.bo_zeros (range_index 5)
  = Ok (Arr2 Float64.nan_10x3).
Proof.
  exact (recon_zero_observation Float64.pinv pinv_newton_shape pinv_newton_converges).
Defined.

(** C7 as stated fails: the result holds no zero. *)
Lemma recon_zero_observation_not_zeros :
  exists r,
    recon_from_model Float64.pinv Float64.model_5 Float64.bo_zeros (range_index 5) = Ok r /\
    shape r = [10; 3] /\
    forallb PrimFloat.is_nan (elements r) = true /\
    existsb PrimFloat.is_zero (elements r) = false /\
    r <> Arr2 Float64.zeros_10x3.
Proof.
  eexists; split; [vm_compute; reflexivity|].
  repeat split; try (vm_compute; reflexivity).
  intros H; apply (f_equal (fun a => existsb PrimFloat.is_zero (elements a))) in H.
  vm_compute in H; discriminate.
Qed.





(* ================================================================= *)
(** ** The identity block on the real model *)



Section RealIdentity.
Local Open Scope R_scope.





End RealIdentity.


(* ================================================================= *)
(** ** The routines evaluated on binary64 arrays *)

(** An index that is not a location of the model: [drop] raises. *)
Example recon_index_out_of_range :
  recon_from_model Float64.pinv Float64.model_5
    (mkBrain (data Float64.bo_varying) [0%Z; 7%Z]) (range_index 5)
  = Raise KeyError.
Proof. vm_compute; reflexivity. Qed.

(** Three observed indices for two columns: the second product raises. *)
Example recon_column_mismatch :
  recon_from_model Float64.pinv Float64.model_5
    (mkBrain (data Float64.bo_varying) [0%Z; 1%Z; 2%Z]) (range_index 5)
  = Raise ValueError.
Proof. vm_compute; reflexivity. Qed.

(** Electrodes that vary in time: three samples at three locations, every
    entry finite. *)
Example recon_varying_finite :
  exists r,
    recon_from_model Float64.pinv Float64.model_5 Float64.bo_varying (range_index 5) = Ok r /\
    shape r = [3; 3] /\
    forallb PrimFloat.is_finite (elements r) = true.
Proof.
  eexists; split; [vm_compute; reflexivity|].
  split; vm_compute; reflexivity.
Qed.

(** The Newton-Schulz iteration on the singular block of two perfectly
    correlated locations. *)
Example pinv_singular_block :
  Float64.pinv (mkmat 2 [[1; 1]; [1; 1]]%float)
  = Ok (mkmat 2 [[0.25; 0.25]; [0.25; 0.25]]%float).
Proof. vm_compute; reflexivity. Qed.

(** Columns that vary in time: the coefficient of each with itself is 1. *)
Example corr_varying_columns :
  corr Float64.X_2_columns Float64.X_2_columns = Ok (Arr1 [1; 1]%float).
Proof. vm_compute; reflexivity. Qed.

(* ================================================================= *)
(** ** More of the routine: indices, statistics and failures *)

(** X1.  On an index [0 .. L-1], dropping distinct observed indices that
    are locations of the model leaves the unknown indices, and the two
    lists together are the index again: each location is either observed
    or unknown, never both. *)
Theorem drop_partition (L : nat) (known : list Z) :
  NoDup known ->
  (forall i, In i known -> (0 <= i < Z.of_nat L)%Z) ->
  exists U,
    drop known (range_index L) = Ok U /\
    Permutation (known ++ U) (range_index L) /\
    (forall i, In i known -> ~ In i U) /\
    length known + length U = L.
Proof.
  intros Hnd Hin.
  exists (filter (fun i => negb (existsb (Z.eqb i) known)) (range_index L)).
  assert (Hmem : forall i,
             In i (filter (fun i => negb (existsb (Z.eqb i) known)) (range_index L))
             <-> (0 <= i < Z.of_nat L)%Z /\ ~ In i known).
  { intros i; rewrite filter_In, in_range_index, negb_true_iff, <- mem_Z.
    destruct (existsb (Z.eqb i) known); intuition congruence. }
  assert (Hdis : forall i, In i known ->
             ~ In i (filter (fun i => negb (existsb (Z.eqb i) known)) (range_index L))).
  { intros i Hi HU; apply Hmem in HU; tauto. }
  assert (Hperm : Permutation
                    (known ++ filter (fun i => negb (existsb (Z.eqb i) known)) (range_index L))
                    (range_index L)).
  { apply NoDup_Permutation.
    - apply NoDup_app; [assumption|apply NoDup_filter, range_index_NoDup|exact Hdis].
    - apply range_index_NoDup.
    - intros i; rewrite in_app_iff, Hmem, in_range_index.
      destruct (in_dec Z.eq_dec i known) as [Hk|Hk]; [|tauto].
      specialize (Hin i Hk); tauto. }
  split; [now apply drop_range_ok|].
  split; [exact Hperm|].
  split; [exact Hdis|].
  apply Permutation_length in Hperm.
  now rewrite length_app, length_range_index in Hperm.
Qed.

Lemma drop_partition_witness :
  exists U,
    drop [0%Z; 1%Z] (range_index 5) = Ok U /\
    Permutation ([0%Z; 1%Z] ++ U) (range_index 5).
Proof.
  destruct (drop_partition 5 [0%Z; 1%Z] NoDup_01 in_01) as [U [Hd [Hp _]]].
  exists U; split; [exact Hd|exact Hp].
Defined.

(** Two well-formed arrays of one shape are divided entry by entry. *)
Lemma np_divide_rect {F : Type} {SF : Scalar F} (a b : matrix F) (r c : nat) :
  wf a = true -> wf b = true ->
  nrows a = r -> ncols a = c -> nrows b = r -> ncols b = c ->
  np_divide a b = Ok (mkmat c (map2 (map2 fdiv) (rows a) (rows b))).
Proof.
  intros Ha Hb Har Hac Hbr Hbc; unfold np_divide.
  rewrite Har, Hac, Hbr, Hbc, !broadcast_len_same; cbn [bind].
  rewrite !stretch_same by assumption.
  do 2 f_equal; apply map2_ext_in; intros ra rb Hra Hrb.
  rewrite !stretch_same; [reflexivity| |].
  - rewrite <- Hbc; now apply wf_rows.
  - rewrite <- Hac; now apply wf_rows.
Qed.

(** X2.  Statistics of one shape [r x c] that is not square fail on line
    206: the mask [np.eye(r) == 1] does not have the shape of the model and
    the assignment raises [IndexError]. *)
Theorem correlation_model_not_square {F : Type} {SF : Scalar F}
    (z2r : F -> F) (mo : Model F) (r c : nat) :
  wf (numerator mo) = true -> wf (denominator mo) = true ->
  nrows (numerator mo) = r -> ncols (numerator mo) = c ->
  nrows (denominator mo) = r -> ncols (denominator mo) = c ->
  r <> c ->
  correlation_model z2r mo = Raise IndexError.
Proof.
  intros Hn Hd Hnr Hnc Hdr Hdc Hne; unfold correlation_model.
  rewrite (np_divide_rect _ _ r c) by assumption; cbn [bind].
  unfold set_where, map_mat, eye_mask, nrows; cbn [rows ncols].
  unfold nrows in Hnr, Hdr.
  rewrite !length_map, length_seq, length_map2, Hnr, Hdr, Nat.min_id, Nat.eqb_refl.
  apply Nat.eqb_neq in Hne; now rewrite Hne.
Qed.

Lemma correlation_model_not_square_witness :
  correlation_model tanh Samples.mo_2x3 = Raise IndexError.
Proof.
  apply (correlation_model_not_square tanh Samples.mo_2x3 2 3); try reflexivity; lia.
Defined.

(** X3.  Symmetric statistics give a symmetric correlation model. *)
Theorem correlation_model_symmetric {F : Type} {SF : Scalar F}
    (z2r : F -> F) (mo : Model F) (L : nat) :
  wf (numerator mo) = true -> wf (denominator mo) = true ->
  nrows (numerator mo) = L -> ncols (numerator mo) = L ->
  nrows (denominator mo) = L -> ncols (denominator mo) = L ->
  (forall i j, i < L -> j < L -> entry (numerator mo) i j = entry (numerator mo) j i) ->
  (forall i j, i < L -> j < L -> entry (denominator mo) i j = entry (denominator mo) j i) ->
  exists M,
    correlation_model z2r mo = Ok M /\
    forall i j, i < L -> j < L -> entry M i j = entry M j i.
Proof.
  intros Hn Hd Hnr Hnc Hdr Hdc Sn Sd.
  exists (mkmat L (model_rows z2r mo L)); split; [now apply correlation_model_eq|].
  intros i j Hi Hj.
  rewrite (model_entry z2r mo L Hn Hd Hnr Hnc Hdr Hdc i j Hi Hj).
  rewrite (model_entry z2r mo L Hn Hd Hnr Hnc Hdr Hdc j i Hj Hi).
  rewrite (Nat.eqb_sym j i), (Sn i j Hi Hj), (Sd i j Hi Hj); reflexivity.
Qed.

Ltac below_5 i j :=
  destruct i as [|[|[|[|[|i]]]]]; try lia;
  destruct j as [|[|[|[|[|j]]]]]; try lia; reflexivity.

Lemma correlation_model_symmetric_witness :
  exists M,
    correlation_model tanh Real.mo = Ok M /\
    entry M 0 2 = entry M 2 0 /\ entry M 3 1 = entry M 1 3.
Proof.
  destruct (correlation_model_symmetric tanh Real.mo 5
              eq_refl eq_refl eq_refl eq_refl eq_refl eq_refl)
    as [M [HM Hs]].
  - intros i j Hi Hj; below_5 i j.
  - intros i j Hi Hj; below_5 i j.
  - exists M; split; [exact HM|]; split; apply Hs; lia.
Defined.

(** Two well-formed arrays of one shape with the same entries are equal. *)
Lemma matrix_ext {F : Type} {SF : Scalar F} (A B : matrix F) :
  wf A = true -> wf B = true ->
  nrows A = nrows B -> ncols A = ncols B ->
  (forall i j, i < nrows A -> j < ncols A -> entry A i j = entry B i j) ->
  A = B.
Proof.
  destruct A as [ca ra], B as [cb rb]; unfold nrows, entry; cbn [rows ncols].
  intros Ha Hb Hr Hc He; subst cb; f_equal.
  apply (nth_ext _ _ [] []); [assumption|intros i Hi].
  assert (Hla : length (nth i ra []) = ca)
    by (apply (wf_rows (mkmat ca ra)); [assumption|now apply nth_In]).
  assert (Hlb : length (nth i rb []) = ca)
    by (apply (wf_rows (mkmat ca rb)); [assumption|apply nth_In; simpl; lia]).
  apply (nth_ext _ _ fzero fzero); [congruence|intros j Hj].
  apply He; [assumption|lia].
Qed.

(** X4.  The diagonal of the statistics plays no part: two models whose
    statistics agree off the diagonal give the same correlation model, and
    so the same reconstruction. *)
Theorem correlation_model_ignores_diagonal {F : Type} {SF : Scalar F}
    (z2r : F -> F) (pinv : matrix F -> result (matrix F)) (mo mo' : Model F) (L : nat) :
  wf (numerator mo) = true -> wf (denominator mo) = true ->
  nrows (numerator mo) = L -> ncols (numerator mo) = L ->
  nrows (denominator mo) = L -> ncols (denominator mo) = L ->
  wf (numerator mo') = true -> wf (denominator mo') = true ->
  nrows (numerator mo') = L -> ncols (numerator mo') = L ->
  nrows (denominator mo') = L -> ncols (denominator mo') = L ->
  (forall i j, i < L -> j < L -> i <> j ->
               entry (numerator mo) i j = entry (numerator mo') i j /\
               entry (denominator mo) i j = entry (denominator mo') i j) ->
  mo_locs_index mo = mo_locs_index mo' ->
  correlation_model z2r mo = correlation_model z2r mo' /\
  forall bo_sub, recon_no_expand z2r pinv bo_sub mo = recon_no_expand z2r pinv bo_sub mo'.
Proof.
  intros Hn Hd Hnr Hnc Hdr Hdc Hn' Hd' Hnr' Hnc' Hdr' Hdc' Hoff Hidx.
  assert (E : correlation_model z2r mo = correlation_model z2r mo').
  { rewrite (correlation_model_eq z2r mo L), (correlation_model_eq z2r mo' L) by assumption.
    f_equal; apply matrix_ext.
    - now apply wf_model.
    - now apply wf_model.
    - unfold nrows; cbn [rows]; now rewrite !length_model_rows.
    - reflexivity.
    - unfold nrows; cbn [rows ncols]; rewrite length_model_rows by assumption.
      intros i j Hi Hj.
      rewrite (model_entry z2r mo L Hn Hd Hnr Hnc Hdr Hdc i j Hi Hj).
      rewrite (model_entry z2r mo' L Hn' Hd' Hnr' Hnc' Hdr' Hdc' i j Hi Hj).
      destruct (Nat.eqb_spec i j) as [_|Hij]; [reflexivity|].
      destruct (Hoff i j Hi Hj Hij) as [-> ->]; reflexivity. }
  split; [exact E|].
  intros bo_sub; unfold recon_no_expand; now rewrite E, Hidx.
Qed.

Lemma correlation_model_ignores_diagonal_witness :
  correlation_model tanh Samples.mo_other_diagonal = correlation_model tanh Real.mo.
Proof.
  apply (correlation_model_ignores_diagonal tanh Real.pinv Samples.mo_other_diagonal Real.mo 5);
    try reflexivity.
  intros i j Hi Hj Hij; split;
    (destruct i as [|[|[|[|[|i]]]]]; try lia;
     destruct j as [|[|[|[|[|j]]]]]; try lia; try reflexivity; contradiction).
Defined.

(** X5.  Which exception: an observed index that is not a location of the
    model raises [KeyError] on line 209, before the model is indexed and
    the pseudo-inverse taken, whatever the observation and the entries of
    the model; with every index in range and a finite model, a number of
    columns other than [K] raises the [ValueError] of the second product. *)
Theorem recon_no_expand_exception {F : Type} {SF : Scalar F}
    (z2r : F -> F) (pinv : matrix F -> result (matrix F))
    (mo : Model F) (bo_sub : Brain F) (M : matrix F) (L : nat) :
  correlation_model z2r mo = Ok M ->
  mo_locs_index mo = range_index L ->
  ((exists i, In i (locs_index bo_sub) /\ (i < 0 \/ Z.of_nat L <= i)%Z) ->
   recon_no_expand z2r pinv bo_sub mo = Raise KeyError)
  /\
  (pinv_shape pinv -> pinv_converges pinv ->
   wf M = true -> nrows M = L -> ncols M = L -> mat_finite M = true ->
   (forall i, In i (locs_index bo_sub) -> (0 <= i < Z.of_nat L)%Z) ->
   ncols (get_data bo_sub) <> length (locs_index bo_sub) ->
   recon_no_expand z2r pinv bo_sub mo = Raise ValueError).
Proof.
  intros HM Hidx; rewrite (recon_no_expand_from z2r pinv mo bo_sub M L HM Hidx).
  split.
  - apply recon_KeyError.
  - intros; now apply recon_ValueError.
Qed.

Lemma recon_no_expand_exception_witness :
  recon_no_expand tanh Real.pinv Real.bo_index_7 Real.mo = Raise KeyError.
Proof.
  apply (proj1 (recon_no_expand_exception tanh Real.pinv Real.mo Real.bo_index_7 Real.M 5
                  Real_model eq_refl)).
  exists 7%Z; split; [simpl; auto|lia].
Defined.

(* ================================================================= *)
(** ** No observed electrode *)

Lemma dotprod_nil_l {F : Type} {SF : Scalar F} (ys : list F) : dotprod [] ys = fzero.
Proof. reflexivity. Qed.

Lemma column_zeros {F : Type} {SF : Scalar F} (r c j : nat) :
  column j (mkmat c (repeat (repeat fzero c) r)) = repeat fzero r.
Proof.
  unfold column; cbn [rows]; rewrite map_repeat; f_equal; apply nth_repeat.
Qed.

Lemma transpose_zeros {F : Type} {SF : Scalar F} (r c : nat) :
  transpose (mkmat c (repeat (repeat fzero c) r)) = mkmat r (repeat (repeat fzero r) c).
Proof.
  unfold transpose, nrows; cbn [rows ncols]; rewrite repeat_length; f_equal.
  transitivity (map (fun _ : nat => repeat (@fzero F SF) r) (seq 0 c)).
  - apply map_ext; intros j; apply column_zeros.
  - now rewrite map_const, length_seq.
Qed.

(** X6.  A brain object without electrodes: the index is empty and the
    data have no column.  The routine does not fail; every location of the
    model is unknown and its estimate is zero at every sample. *)
Theorem recon_no_expand_no_electrode {F : Type} {SF : Scalar F}
    (z2r : F -> F) (pinv : matrix F -> result (matrix F))
    (mo : Model F) (bo_sub : Brain F) (M : matrix F) (L : nat) :
  pinv_shape pinv -> pinv_converges pinv ->
  correlation_model z2r mo = Ok M ->
  nrows M = L -> ncols M = L ->
  mo_locs_index mo = range_index L ->
  locs_index bo_sub = [] ->
  ncols (get_data bo_sub) = 0 ->
  drop (locs_index bo_sub) (mo_locs_index mo) = Ok (range_index L) /\
  recon_no_expand z2r pinv bo_sub mo
  = Ok (squeeze (mkmat L (repeat (repeat fzero L) (nrows (get_data bo_sub))))).
Proof.
  intros Hshape Hconv HM Hr Hc Hidx Hk Hobs.
  split; [rewrite Hk, Hidx; unfold drop; simpl; f_equal;
         apply forallb_filter_id, forallb_forall; reflexivity|].
  rewrite (recon_no_expand_from z2r pinv mo bo_sub M L HM Hidx).
  assert (Hin : forall i, In i (locs_index bo_sub) -> (0 <= i < Z.of_nat L)%Z)
    by (rewrite Hk; intros i []).
  destruct (Hconv (K_aa M (locs_index bo_sub))) as [P HP];
    [apply wf_block|rewrite Hk; reflexivity|].
  destruct (Hshape _ _ (wf_block _ _ _) HP) as [_ [HnP HcP]].
  unfold K_aa in HnP, HcP; rewrite ncols_block in HnP; rewrite nrows_block in HcP.
  rewrite (recon_unfold pinv M L bo_sub Hr Hc Hin P HP HnP).
  unfold dot; rewrite ncols_mat_mul, HcP, nrows_transpose, ncols_zscore, Hobs, Hk.
  cbn [length Nat.eqb bind]; do 2 f_equal.
  set (Yt := transpose (zscore (get_data bo_sub))).
  assert (HB : mat_mul (mat_mul (K_ba M L []) P) Yt
               = mkmat (nrows (get_data bo_sub))
                   (repeat (repeat fzero (nrows (get_data bo_sub))) L)).
  { unfold mat_mul at 1; f_equal; [apply nrows_zscore|].
    unfold mat_mul, K_ba, block; cbn [rows]; rewrite !map_map.
    rewrite HcP, Hk; cbn [length seq map].
    replace (ncols Yt) with (nrows (get_data bo_sub)) by (symmetry; apply nrows_zscore).
    transitivity (map (fun _ : Z => repeat (@fzero F SF) (nrows (get_data bo_sub)))
                    (unobserved L [])).
    - apply map_ext; intros i.
      transitivity (map (fun _ : nat => @fzero F SF) (seq 0 (nrows (get_data bo_sub))));
        [apply map_ext; reflexivity|now rewrite map_const, length_seq].
    - rewrite map_const, (length_unobserved L []); [now rewrite Nat.sub_0_r|constructor|].
      intros i []. }
  rewrite HB; apply transpose_zeros.
Qed.

Lemma recon_no_expand_no_electrode_witness :
  recon_no_expand tanh Real.pinv Samples.bo_3x0 Real.mo
  = Ok (Arr2 (mkmat 5 (repeat (repeat 0%R 5) 3))).
Proof.
  exact (proj2 (recon_no_expand_no_electrode tanh Real.pinv Real.mo Samples.bo_3x0 Real.M 5
                  pinv_newton_shape pinv_newton_converges Real_model
                  eq_refl eq_refl eq_refl eq_refl eq_refl)).
Defined.

(* ================================================================= *)
(** ** The evaluation harness *)

Lemma atleast_2d_of_squeeze {F : Type} {SF : Scalar F} (X : matrix F) :
  wf X = true ->
  atleast_2d (squeeze X)
  = if (ncols X =? 1) && negb (nrows X =? 1) then transpose X else X.
Proof.
  intros Hwf; destruct X as [c rs]; unfold squeeze, nrows; cbn [rows ncols].
  destruct rs as [|r [|r' rs]]; cbn [length].
  - destruct c as [|[|c]]; reflexivity.
  - assert (Hr : length r = c) by (apply (wf_rows (mkmat c [r])); [assumption|now left]).
    destruct c as [|[|c]]; cbn [Nat.eqb andb negb atleast_2d].
    + cbn [nth]; now rewrite Hr.
    + destruct r as [|x [|y r]]; try discriminate; reflexivity.
    + cbn [nth]; now rewrite Hr.
  - destruct c as [|[|c]]; cbn [Nat.eqb andb negb atleast_2d]; try reflexivity.
    unfold transpose, nrows; cbn [rows ncols seq map]; now rewrite length_column.
Qed.

(** X7.  [np.atleast_2d] gives back the array that [np.squeeze] received,
    except for an array of one column and a number of rows other than one:
    that one comes back as a single row, transposed. *)
Theorem atleast_2d_squeeze {F : Type} {SF : Scalar F} (X : matrix F) :
  wf X = true ->
  atleast_2d (squeeze X)
  = if (ncols X =? 1) && negb (nrows X =? 1) then transpose X else X.
Proof. apply atleast_2d_of_squeeze. Qed.

Lemma atleast_2d_squeeze_witness :
  atleast_2d (squeeze Samples.actual_3x1) = transpose Samples.actual_3x1 /\
  atleast_2d (squeeze Samples.actual_3x3) = Samples.actual_3x3.
Proof.
  split.
  - exact (atleast_2d_squeeze Samples.actual_3x1 eq_refl).
  - exact (atleast_2d_squeeze Samples.actual_3x3 eq_refl).
Defined.

Section HarnessFacts.
Context {F : Type} {SF : Scalar F}.
Variable z2r : F -> F.
Variable pinv : matrix F -> result (matrix F).
Hypothesis Hshape : pinv_shape pinv.
Hypothesis Hconv : pinv_converges pinv.

Variables (mo : Model F) (bo_sub : Brain F) (M : matrix F) (L : nat).
Variable actual_data : matrix F.
Hypothesis HM : correlation_model z2r mo = Ok M.
Hypothesis Hwf : wf M = true.
Hypothesis Hrows : nrows M = L.
Hypothesis Hcols : ncols M = L.
Hypothesis Hfin : mat_finite M = true.
Hypothesis Hidx : mo_locs_index mo = range_index L.
Hypothesis Hnd : NoDup (locs_index bo_sub).
Hypothesis Hin : forall i, In i (locs_index bo_sub) -> (0 <= i < Z.of_nat L)%Z.
Hypothesis Hobs : ncols (get_data bo_sub) = length (locs_index bo_sub).
Hypothesis HT : nrows actual_data = nrows (get_data bo_sub).

(** The harness once the reconstruction has returned. *)
Lemma corr_vals_unfold :
  exists P,
    pinv (K_aa M (locs_index bo_sub)) = Ok P /\
    corr_vals z2r pinv actual_data bo_sub mo
    = corr (zscore actual_data)
        (atleast_2d
           (squeeze (reconstruct_spec M L (locs_index bo_sub) (get_data bo_sub) P))).
Proof.
  destruct (recon_no_expand_Ok z2r pinv Hshape Hconv mo bo_sub M L
              HM Hwf Hrows Hcols Hfin Hidx Hin Hobs) as [P [HP Heq]].
  exists P; split; [assumption|].
  unfold corr_vals; now rewrite Heq.
Qed.

End HarnessFacts.

(** X8.  With [T <> 1] samples and [L - K <> 1] unknown locations the
    harness returns one coefficient for each unknown location: the [j]-th
    is the Pearson coefficient of the standardized activity held out in
    column [j] with the estimate at the [j]-th unknown index. *)
Theorem corr_vals_per_location {F : Type} {SF : Scalar F}
    (z2r : F -> F) (pinv : matrix F -> result (matrix F))
    (mo : Model F) (bo_sub : Brain F) (M : matrix F) (L : nat) (actual_data : matrix F) :
  pinv_shape pinv -> pinv_converges pinv ->
  correlation_model z2r mo = Ok M ->
  wf M = true -> nrows M = L -> ncols M = L -> mat_finite M = true ->
  mo_locs_index mo = range_index L ->
  NoDup (locs_index bo_sub) ->
  (forall i, In i (locs_index bo_sub) -> (0 <= i < Z.of_nat L)%Z) ->
  ncols (get_data bo_sub) = length (locs_index bo_sub) ->
  nrows actual_data = nrows (get_data bo_sub) ->
  ncols actual_data = L - length (locs_index bo_sub) ->
  nrows (get_data bo_sub) <> 1 ->
  L - length (locs_index bo_sub) <> 1 ->
  exists P rs,
    pinv (K_aa M (locs_index bo_sub)) = Ok P /\
    corr_vals z2r pinv actual_data bo_sub mo = Ok (Arr1 rs) /\
    length rs = L - length (locs_index bo_sub) /\
    forall j, j < L - length (locs_index bo_sub) ->
      pearsonr (column j (zscore actual_data))
        (location_estimate M (nth j (unobserved L (locs_index bo_sub)) 0%Z)
           (locs_index bo_sub) (get_data bo_sub) P)
      = Ok (nth j rs fzero).
Proof.
  intros Hshape Hconv HM Hwf Hr Hc Hfin Hidx Hnd Hin Hobs HT Hca HT1 HU1.
  destruct (corr_vals_unfold z2r pinv Hshape Hconv mo bo_sub M L actual_data
              HM Hwf Hr Hc Hfin Hidx Hin Hobs) as [P [HP Heq]].
  set (X := reconstruct_spec M L (locs_index bo_sub) (get_data bo_sub) P) in *.
  assert (HnX : nrows X = nrows (get_data bo_sub)) by apply nrows_reconstruct_spec.
  assert (HcX : ncols X = L - length (locs_index bo_sub))
    by (unfold X; now rewrite ncols_reconstruct_spec, length_unobserved).
  rewrite squeeze_id in Heq by congruence; cbn [atleast_2d] in Heq.
  destruct (corr_columns (zscore actual_data) X) as [rs [Hcorr [Hl Hn]]];
    [rewrite nrows_zscore; congruence|].
  rewrite ncols_zscore, Hca, HcX, Nat.min_id in Hl, Hn.
  exists P, rs; repeat split; [assumption|congruence|assumption|].
  intros j Hj; rewrite <- (Hn j Hj); f_equal.
  unfold X; rewrite column_reconstruct_spec; [reflexivity|].
  now rewrite length_unobserved.
Qed.

Lemma corr_vals_per_location_witness :
  exists rs,
    corr_vals tanh Real.pinv Samples.actual_3x3 Real.bo_3x2 Real.mo = Ok (Arr1 rs) /\
    length rs = 3.
Proof.
  destruct (corr_vals_per_location tanh Real.pinv Real.mo Real.bo_3x2 Real.M 5
              Samples.actual_3x3 pinv_newton_shape pinv_newton_converges
              Real_model Real_model_wf eq_refl eq_refl (mat_finite_R _) eq_refl
              NoDup_01 in_01 eq_refl eq_refl eq_refl)
    as [P [rs [_ [Hc [Hl _]]]]].
  - unfold Real.bo_3x2, nrows, get_data; simpl; lia.
  - unfold Real.bo_3x2; simpl; lia.
  - exists rs; split; [exact Hc|exact Hl].
Defined.

Lemma pearsonr_one_sample {F : Type} {SF : Scalar F} (x y : list F) :
  length y = 1 -> exists r, pearsonr x y = Ok r.
Proof.
  intros Hy; unfold pearsonr, np_multiply; rewrite !length_map, Hy.
  unfold broadcast_len; destruct (length x =? 1); cbn; eauto.
Qed.

(** X9.  With a single unknown location and [T >= 2] samples, the
    reconstruction comes back from [np.atleast_2d] as one row of [T]
    columns, so the harness returns a single coefficient, and that one
    correlates the [T] samples held out with one number, the estimate at
    the first sample. *)
Theorem corr_vals_one_unknown {F : Type} {SF : Scalar F}
    (z2r : F -> F) (pinv : matrix F -> result (matrix F))
    (mo : Model F) (bo_sub : Brain F) (M : matrix F) (L : nat) (actual_data : matrix F) :
  pinv_shape pinv -> pinv_converges pinv ->
  correlation_model z2r mo = Ok M ->
  wf M = true -> nrows M = L -> ncols M = L -> mat_finite M = true ->
  mo_locs_index mo = range_index L ->
  NoDup (locs_index bo_sub) ->
  (forall i, In i (locs_index bo_sub) -> (0 <= i < Z.of_nat L)%Z) ->
  ncols (get_data bo_sub) = length (locs_index bo_sub) ->
  nrows actual_data = nrows (get_data bo_sub) ->
  ncols actual_data = 1 ->
  2 <= nrows (get_data bo_sub) ->
  L - length (locs_index bo_sub) = 1 ->
  exists P r,
    pinv (K_aa M (locs_index bo_sub)) = Ok P /\
    corr_vals z2r pinv actual_data bo_sub mo = Ok (Arr1 [r]) /\
    length (column 0 (zscore actual_data)) = nrows (get_data bo_sub) /\
    pearsonr (column 0 (zscore actual_data))
      [nth 0 (location_estimate M (nth 0 (unobserved L (locs_index bo_sub)) 0%Z)
                (locs_index bo_sub) (get_data bo_sub) P) fzero]
    = Ok r.
Proof.
  intros Hshape Hconv HM Hwf Hr Hc Hfin Hidx Hnd Hin Hobs HT Hca HT2 HU1.
  destruct (corr_vals_unfold z2r pinv Hshape Hconv mo bo_sub M L actual_data
              HM Hwf Hr Hc Hfin Hidx Hin Hobs) as [P [HP Heq]].
  set (X := reconstruct_spec M L (locs_index bo_sub) (get_data bo_sub) P) in *.
  assert (HnX : nrows X = nrows (get_data bo_sub)) by apply nrows_reconstruct_spec.
  assert (HlU : length (unobserved L (locs_index bo_sub)) = 1)
    by now rewrite length_unobserved.
  assert (HcX : ncols X = 1) by (unfold X; now rewrite ncols_reconstruct_spec).
  rewrite atleast_2d_of_squeeze in Heq by apply wf_transpose.
  rewrite HcX, HnX in Heq.
  replace (nrows (get_data bo_sub) =? 1) with false in Heq
    by (symmetry; apply Nat.eqb_neq; lia).
  cbn [Nat.eqb andb negb] in Heq.
  set (c0 := column 0 (zscore actual_data)).
  set (e0 := nth 0 (location_estimate M (nth 0 (unobserved L (locs_index bo_sub)) 0%Z)
                      (locs_index bo_sub) (get_data bo_sub) P) fzero).
  destruct (pearsonr_one_sample c0 [e0] eq_refl) as [r Hp].
  exists P, r; repeat split; [assumption| |unfold c0; now rewrite length_column, nrows_zscore|assumption].
  rewrite Heq; unfold corr.
  assert (E1 : rows (transpose (zscore actual_data)) = [c0]).
  { unfold transpose; cbn [rows]; rewrite ncols_zscore, Hca; reflexivity. }
  assert (E2 : exists rest, rows (transpose (transpose X)) = [e0] :: rest).
  { unfold transpose at 1; cbn [rows]; rewrite ncols_transpose, HnX.
    destruct (nrows (get_data bo_sub)) as [|t]; [lia|]; cbn [seq map].
    eexists; f_equal.
    unfold column at 1, transpose; cbn [rows]; rewrite HcX; cbn [seq map].
    unfold e0; rewrite <- (column_reconstruct_spec M L _ _ P 0) by lia.
    reflexivity. }
  destruct E2 as [rest E2]; rewrite E1, E2; cbn [combine mapM fst snd].
  now rewrite Hp.
Qed.

Lemma corr_vals_one_unknown_witness :
  exists r, corr_vals tanh Real.pinv Samples.actual_3x1 Real.bo_3x4 Real.mo = Ok (Arr1 [r]).
Proof.
  destruct (corr_vals_one_unknown tanh Real.pinv Real.mo Real.bo_3x4 Real.M 5
              Samples.actual_3x1 pinv_newton_shape pinv_newton_converges
              Real_model Real_model_wf eq_refl eq_refl (mat_finite_R _) eq_refl)
    as [P [r [_ [Hc _]]]].
  - repeat constructor; simpl; intuition lia.
  - simpl; intuition lia.
  - reflexivity.
  - reflexivity.
  - reflexivity.
  - unfold Real.bo_3x4, nrows, get_data; simpl; lia.
  - reflexivity.
  - exists r; exact Hc.
Defined.

Lemma ncols_atleast_2d_empty {F : Type} {SF : Scalar F} (t : nat) :
  ncols (atleast_2d (squeeze (mkmat (F := F) 0 (repeat [] t)))) = 0.
Proof. destruct t as [|[|t]]; reflexivity. Qed.

(** X10.  With every location observed the harness returns no coefficient
    at all, and the correlation that is recorded is the mean of nothing,
    zero divided by zero. *)
Theorem corr_vals_all_observed {F : Type} {SF : Scalar F}
    (z2r : F -> F) (pinv : matrix F -> result (matrix F))
    (mo : Model F) (bo_sub : Brain F) (M : matrix F) (L : nat) (actual_data : matrix F) :
  pinv_shape pinv -> pinv_converges pinv ->
  correlation_model z2r mo = Ok M ->
  wf M = true -> nrows M = L -> ncols M = L -> mat_finite M = true ->
  mo_locs_index mo = range_index L ->
  (forall i, In i (locs_index bo_sub) <-> (0 <= i < Z.of_nat L)%Z) ->
  ncols (get_data bo_sub) = length (locs_index bo_sub) ->
  corr_vals z2r pinv actual_data bo_sub mo = Ok (Arr1 []) /\
  mean_correlation z2r pinv actual_data bo_sub mo = Ok (fdiv fzero (of_nat 0)).
Proof.
  intros Hshape Hconv HM Hwf Hr Hc Hfin Hidx Hall Hobs.
  assert (Hin : forall i, In i (locs_index bo_sub) -> (0 <= i < Z.of_nat L)%Z)
    by (intros i; apply Hall).
  assert (HU : unobserved L (locs_index bo_sub) = [])
    by (apply unobserved_all; intros i; apply Hall).
  destruct (corr_vals_unfold z2r pinv Hshape Hconv mo bo_sub M L actual_data
              HM Hwf Hr Hc Hfin Hidx Hin Hobs) as [P [HP Heq]].
  rewrite (reconstruct_spec_empty _ _ _ _ _ HU) in Heq.
  assert (E : corr_vals z2r pinv actual_data bo_sub mo = Ok (Arr1 [])).
  { rewrite Heq; unfold corr.
    unfold transpose at 2; cbn [rows]; rewrite ncols_atleast_2d_empty; cbn [seq map].
    now rewrite combine_nil. }
  split; [exact E|].
  unfold mean_correlation; rewrite E; reflexivity.
Qed.

Lemma corr_vals_all_observed_witness :
  corr_vals tanh Real.pinv Samples.actual_2x0 Real.bo_2x5 Real.mo = Ok (Arr1 []).
Proof.
  apply (corr_vals_all_observed tanh Real.pinv Real.mo Real.bo_2x5 Real.M 5
           Samples.actual_2x0 pinv_newton_shape pinv_newton_converges
           Real_model Real_model_wf eq_refl eq_refl (mat_finite_R _) eq_refl).
  - intros i; split; [intros Hi; simpl in Hi; lia|intros Hi].
    assert (H : (i = 0 \/ i = 1 \/ i = 2 \/ i = 3 \/ i = 4)%Z) by lia.
    simpl; intuition auto.
  - reflexivity.
Defined.

(* ================================================================= *)
(** ** More of the correlation metric *)

Lemma broadcast_len_fails (n m : nat) :
  n <> m -> n <> 1 -> m <> 1 -> broadcast_len n m = Raise ValueError.
Proof.
  intros H1 H2 H3; unfold broadcast_len.
  apply Nat.eqb_neq in H1, H2, H3; now rewrite H1, H2, H3.
Qed.

(** X11.  Two arrays with different numbers of rows, neither of them one,
    and at least one column each: the first pair of columns cannot be
    multiplied and [corr] raises [ValueError]. *)
Theorem corr_rows_differ {F : Type} {SF : Scalar F} (X Y : matrix F) :
  nrows X <> nrows Y -> nrows X <> 1 -> nrows Y <> 1 ->
  0 < ncols X -> 0 < ncols Y ->
  corr X Y = Raise ValueError.
Proof.
  intros Hne HX HY HcX HcY; unfold corr, transpose; cbn [rows].
  destruct (ncols X) as [|cx]; [lia|]; destruct (ncols Y) as [|cy]; [lia|].
  cbn [seq map combine mapM fst snd].
  unfold pearsonr at 1, np_multiply.
  rewrite !length_map, !length_column, broadcast_len_fails by assumption.
  reflexivity.
Qed.

Lemma corr_rows_differ_witness :
  corr Samples.X_3_rows Samples.Y_2_rows = Raise ValueError.
Proof.
  apply corr_rows_differ; unfold nrows; simpl; lia.
Defined.

Lemma broadcast_len_sym (n m : nat) : broadcast_len n m = broadcast_len m n.
Proof.
  unfold broadcast_len; rewrite (Nat.eqb_sym m n).
  destruct (Nat.eqb_spec n m) as [->|Hnm]; [reflexivity|].
  destruct (Nat.eqb_spec n 1) as [->|Hn], (Nat.eqb_spec m 1) as [->|Hm];
    try reflexivity; congruence.
Qed.

Lemma map2_comm {A B : Type} (f : A -> A -> B) (xs ys : list A) :
  (forall a b, f a b = f b a) -> map2 f xs ys = map2 f ys xs.
Proof.
  intros Hf; unfold map2; revert ys; induction xs as [|x xs IH]; intros [|y ys];
    simpl; try reflexivity.
  now rewrite Hf, (IH ys).
Qed.

Lemma mapM_combine_swap {A B : Type} (f : A -> A -> result B) (xs ys : list A) :
  (forall a b, f a b = f b a) ->
  mapM (fun p => f (fst p) (snd p)) (combine xs ys)
  = mapM (fun p => f (fst p) (snd p)) (combine ys xs).
Proof.
  intros Hf; revert ys; induction xs as [|x xs IH]; intros [|y ys]; simpl;
    try reflexivity.
  now rewrite Hf, (IH ys).
Qed.

Section CorrSymmetry.
Context {F : Type} {SF : Scalar F}.
Hypothesis mul_comm : forall a b : F, fmul a b = fmul b a.

Lemma pearsonr_sym (x y : list F) : pearsonr x y = pearsonr y x.
Proof.
  unfold pearsonr, np_multiply; cbv zeta.
  rewrite (broadcast_len_sym (length (map _ x))).
  destruct (broadcast_len _ _) as [n|e]; cbn [bind]; [|reflexivity].
  now rewrite (map2_comm fmul _ _ mul_comm), (mul_comm (sum_of_squares _)).
Qed.

End CorrSymmetry.

(** X12.  When the multiplication of the scalars commutes, the metric is
    symmetric: [corr(X, Y)] and [corr(Y, X)] are the same, coefficients
    and failures alike. *)
Theorem corr_sym {F : Type} {SF : Scalar F} (X Y : matrix F) :
  (forall a b : F, fmul a b = fmul b a) ->
  corr X Y = corr Y X.
Proof.
  intros mul_comm; unfold corr.
  now rewrite (mapM_combine_swap pearsonr _ _ (pearsonr_sym mul_comm)).
Qed.

(** The product of two binary64 numbers does not depend on their order. *)
Lemma float_mul_comm (a b : float) : PrimFloat.mul a b = PrimFloat.mul b a.
Proof.
  apply Prim2SF_inj; rewrite !mul_spec; unfold SF64mul, SFmul.
  destruct (Prim2SF a) as [sa|sa| |sa ma ea], (Prim2SF b) as [sb|sb| |sb mb eb];
    try reflexivity; rewrite ?(xorb_comm sa sb); try reflexivity.
  now rewrite (Pos.mul_comm ma mb), (Z.add_comm ea eb).
Qed.

Lemma corr_sym_witness :
  corr Float64.X_2_columns Float64.Y_3_columns = corr Float64.Y_3_columns Float64.X_2_columns.
Proof. exact (corr_sym Float64.X_2_columns Float64.Y_3_columns float_mul_comm). Defined.

Lemma mapM_Forall {A B : Type} (f : A -> result B) (P : B -> Prop) (l : list A) (bs : list B) :
  (forall a b, f a = Ok b -> P b) -> mapM f l = Ok bs -> Forall P bs.
Proof.
  intros Hf; revert bs; induction l as [|a l IH]; simpl; intros bs Hm.
  - inversion Hm; constructor.
  - destruct (f a) as [b|] eqn:Ea; simpl in Hm; [|discriminate].
    destruct (mapM f l) as [bs'|]; simpl in Hm; [|discriminate].
    inversion Hm; subst; constructor; [now apply (Hf a)|now apply IH].
Qed.

(** X13.  No coefficient that [corr] returns is above 1 or below -1: the
    coefficient that came out above 1 was set to 1, the one below -1 to
    -1 (a NaN is neither). *)
Theorem corr_within_bounds {F : Type} {SF : Scalar F} (X Y : matrix F) (rs : list F) :
  fltb fone fone = false ->
  fltb (fsub fzero fone) (fsub fzero fone) = false ->
  fltb fone (fsub fzero fone) = false ->
  corr X Y = Ok (Arr1 rs) ->
  Forall (fun r => fltb fone r = false /\ fltb r (fsub fzero fone) = false) rs.
Proof.
  intros H11 Hmm H1m Hc; unfold corr in Hc.
  destruct (mapM _ _) as [bs|] eqn:Em; simpl in Hc; [|discriminate].
  inversion Hc; subst bs; revert Em; apply mapM_Forall.
  intros [x y] r; cbn [fst snd]; unfold pearsonr.
  destruct (np_multiply _ _) as [prod|]; cbn [bind]; [|discriminate].
  intros Hr; inversion Hr; clear Hr.
  unfold py_max, py_min.
  repeat match goal with
         | |- context [if fltb ?a ?b then _ else _] => destruct (fltb a b) eqn:?
         end; split; congruence.
Qed.

Lemma corr_within_bounds_witness :
  Forall (fun r => PrimFloat.ltb 1 r = false /\ PrimFloat.ltb r (-1) = false)
    [1; 1]%float.
Proof.
  exact (corr_within_bounds Float64.X_2_columns Float64.X_2_columns [1; 1]%float
           eq_refl eq_refl eq_refl eq_refl).
Defined.

(* ================================================================= *)
(** ** The units of the recordings *)

Section Rescaling.
Local Open Scope R_scope.
Variables a b : R.
Hypothesis Ha : 0 < a.

Let f (x : R) : R := a * x + b.

Lemma fold_Rplus_acc (l : list R) (acc : R) :
  fold_left Rplus l acc = acc + fold_left Rplus l 0.
Proof.
  revert acc; induction l as [|x l IH]; intros acc; simpl; [lra|].
  rewrite (IH (acc + x)), (IH (0 + x)); lra.
Qed.

Lemma np_sum_cons (x : R) (l : list R) : np_sum (x :: l) = x + np_sum l.
Proof.
  unfold np_sum; cbn [fold_left fadd fzero R_scalar].
  rewrite fold_Rplus_acc; lra.
Qed.

Lemma np_sum_affine (l : list R) :
  np_sum (map f l) = a * np_sum l + INR (length l) * b.
Proof.
  induction l as [|x l IH]; [unfold np_sum; simpl; lra|].
  cbn [map]; rewrite !np_sum_cons, IH; cbn [length]; rewrite S_INR; unfold f; lra.
Qed.

Lemma np_mean_affine (l : list R) :
  l <> [] -> np_mean (map f l) = a * np_mean l + b.
Proof.
  intros Hl; unfold np_mean; rewrite np_sum_affine, length_map.
  cbn [fdiv of_nat R_scalar].
  assert (INR (length l) <> 0) by (apply not_0_INR; destruct l; simpl; congruence).
  now field.
Qed.

Lemma sum_of_squares_scaled (l : list R) :
  sum_of_squares (map (fun v => a * v) l) = a * a * sum_of_squares l.
Proof.
  unfold sum_of_squares; rewrite map_map.
  induction l as [|x l IH]; [unfold np_sum; simpl; lra|].
  cbn [map]; rewrite !np_sum_cons, IH; cbn [fmul R_scalar]; lra.
Qed.

Lemma centred_affine (l : list R) :
  l <> [] ->
  map (fun v => fsub v (np_mean (map f l))) (map f l)
  = map (fun v => a * v) (map (fun v => fsub v (np_mean l)) l).
Proof.
  intros Hl; rewrite np_mean_affine by assumption; rewrite !map_map.
  apply map_ext; intros x; unfold f; cbn [fsub R_scalar]; lra.
Qed.

Lemma np_std_affine (l : list R) :
  l <> [] -> np_std (map f l) = a * np_std l.
Proof.
  intros Hl; unfold np_std; cbv zeta.
  rewrite centred_affine, sum_of_squares_scaled, length_map by assumption.
  cbn [fsqrt fdiv of_nat R_scalar].
  set (ss := sum_of_squares _); set (n := INR (length l)).
  replace (a * a * ss / n) with (a * a * (ss / n)) by (unfold Rdiv; ring).
  rewrite sqrt_mult_alt by nra.
  rewrite sqrt_square by lra; reflexivity.
Qed.

Lemma standardize_affine (r ms ss : list R) :
  map2 fdiv (map2 fsub (map f r) (map f ms)) (map (fun s => a * s) ss)
  = map2 fdiv (map2 fsub r ms) ss.
Proof.
  unfold map2; revert ms ss; induction r as [|x r IH]; intros [|m ms] [|s ss];
    try reflexivity.
  cbn [map combine fst snd]; f_equal; [|apply (IH ms ss)].
  unfold f; cbn [fdiv fsub R_scalar]; unfold Rdiv.
  rewrite Rinv_mult; generalize (/ s); intros si; field; lra.
Qed.

Lemma column_map_mat (m : matrix R) (j : nat) :
  wf m = true -> (j < ncols m)%nat -> column j (map_mat f m) = map f (column j m).
Proof.
  intros Hwf Hj; unfold column, map_mat; cbn [rows]; rewrite !map_map.
  apply map_ext_in; intros r Hr.
  apply (nth_map_lt f); now rewrite (wf_rows m r Hwf Hr).
Qed.

(** Standardizing forgets a positive change of units. *)
Lemma zscore_affine (m : matrix R) :
  wf m = true -> zscore (map_mat f m) = zscore m.
Proof.
  intros Hwf; unfold zscore; cbv zeta.
  change (ncols (map_mat f m)) with (ncols m); f_equal.
  destruct (rows m) as [|r0 rs] eqn:Erows.
  { unfold map_mat; cbn [rows]; now rewrite Erows. }
  assert (Hne : forall j, column j m <> []).
  { intros j; unfold column; rewrite Erows; discriminate. }
  assert (Em : map (fun j => np_mean (column j (map_mat f m))) (seq 0 (ncols m))
               = map f (map (fun j => np_mean (column j m)) (seq 0 (ncols m)))).
  { rewrite map_map; apply map_ext_in; intros j Hj; apply in_seq in Hj.
    rewrite column_map_mat by (assumption || lia).
    now apply np_mean_affine. }
  assert (Es : map (fun j => np_std (column j (map_mat f m))) (seq 0 (ncols m))
               = map (fun s => a * s) (map (fun j => np_std (column j m)) (seq 0 (ncols m)))).
  { rewrite map_map; apply map_ext_in; intros j Hj; apply in_seq in Hj.
    rewrite column_map_mat by (assumption || lia).
    now apply np_std_affine. }
  rewrite Em, Es; unfold map_mat; cbn [rows]; rewrite Erows, map_map.
  apply map_ext; intros r; apply standardize_affine.
Qed.

End Rescaling.

(** X14.  In exact arithmetic the reconstruction does not depend on the
    units of the recordings: multiplying every recorded value by [a > 0]
    and adding [b] leaves the result of [recon_no_expand] as it is. *)
Theorem recon_no_expand_units
    (z2r : R -> R) (pinv : matrix R -> result (matrix R))
    (mo : Model R) (bo_sub : Brain R) (a b : R) :
  (0 < a)%R ->
  wf (get_data bo_sub) = true ->
  recon_no_expand z2r pinv
    (mkBrain (map_mat (fun x => (a * x + b)%R) (get_data bo_sub)) (locs_index bo_sub)) mo
  = recon_no_expand z2r pinv bo_sub mo.
Proof.
  intros Ha Hwf; unfold recon_no_expand, recon_from_model, get_data.
  cbn [data locs_index].
  now rewrite (zscore_affine a b Ha (data bo_sub) Hwf).
Qed.

Lemma recon_no_expand_units_witness :
  recon_no_expand tanh Real.pinv
    (mkBrain (map_mat (fun x => (2 * x + 1)%R) (get_data Real.bo_3x2))
       (locs_index Real.bo_3x2)) Real.mo
  = recon_no_expand tanh Real.pinv Real.bo_3x2 Real.mo.
Proof.
  apply recon_no_expand_units; [lra|reflexivity].
Defined.

(* ================================================================= *)
(** ** The simulated correlation matrix, in exact arithmetic *)

Section SimilarityFacts.
Local Open Scope R_scope.

Lemma np_isnan_R (x : R) : np_isnan x = false.
Proof.
  unfold np_isnan; cbn [fltb fone fzero R_scalar].
  destruct (Rlt_dec x 1) as [H|H]; [reflexivity|].
  destruct (Rlt_dec 0 x) as [H'|H']; [reflexivity|lra].
Qed.

Lemma np_maximum_R (x y : R) : np_maximum x y = Rmax x y.
Proof.
  unfold np_maximum; rewrite !np_isnan_R; cbn [fltb R_scalar].
  unfold Rmax; destruct (Rlt_dec x y), (Rle_dec x y); lra.
Qed.

Lemma np_minimum_R (x y : R) : np_minimum x y = Rmin x y.
Proof.
  unfold np_minimum; rewrite !np_isnan_R; cbn [fltb R_scalar].
  unfold Rmin; destruct (Rlt_dec y x), (Rle_dec x y); lra.
Qed.

Lemma fold_maximum_spec (xs : list R) (x : R) :
  In (fold_left np_maximum xs x) (x :: xs) /\
  forall y, In y (x :: xs) -> y <= fold_left np_maximum xs x.
Proof.
  revert x; induction xs as [|z xs IH]; intros x; cbn [fold_left].
  - split; [now left|intros y [<-|[]]; lra].
  - destruct (IH (np_maximum x z)) as [Hin Hle]; rewrite np_maximum_R in *.
    split.
    + destruct Hin as [Hin|Hin]; [|now right; right].
      rewrite <- Hin; unfold Rmax; destruct (Rle_dec x z); [right; now left|now left].
    + intros y [Hy|[Hy|Hy]]; [subst y|subst y|apply Hle; now right].
      * apply Rle_trans with (Rmax x z); [apply Rmax_l|apply Hle; now left].
      * apply Rle_trans with (Rmax x z); [apply Rmax_r|apply Hle; now left].
Qed.

Lemma fold_minimum_spec (xs : list R) (x : R) :
  In (fold_left np_minimum xs x) (x :: xs) /\
  forall y, In y (x :: xs) -> fold_left np_minimum xs x <= y.
Proof.
  revert x; induction xs as [|z xs IH]; intros x; cbn [fold_left].
  - split; [now left|intros y [<-|[]]; lra].
  - destruct (IH (np_minimum x z)) as [Hin Hle]; rewrite np_minimum_R in *.
    split.
    + destruct Hin as [Hin|Hin]; [|now right; right].
      rewrite <- Hin; unfold Rmin; destruct (Rle_dec x z); [now left|right; now left].
    + intros y [Hy|[Hy|Hy]]; [subst y|subst y|apply Hle; now right].
      * apply Rle_trans with (Rmin x z); [apply Hle; now left|apply Rmin_l].
      * apply Rle_trans with (Rmin x z); [apply Hle; now left|apply Rmin_r].
Qed.

Lemma np_max_spec (m : matrix R) :
  concat (rows m) <> [] ->
  exists v, np_max m = Ok v /\ In v (concat (rows m)) /\
            forall y, In y (concat (rows m)) -> y <= v.
Proof.
  intros Hne; unfold np_max; destruct (concat (rows m)) as [|x xs]; [congruence|].
  eexists; split; [reflexivity|apply fold_maximum_spec].
Qed.

Lemma np_min_spec (m : matrix R) :
  concat (rows m) <> [] ->
  exists v, np_min m = Ok v /\ In v (concat (rows m)) /\
            forall y, In y (concat (rows m)) -> v <= y.
Proof.
  intros Hne; unfold np_min; destruct (concat (rows m)) as [|x xs]; [congruence|].
  eexists; split; [reflexivity|apply fold_minimum_spec].
Qed.

Lemma concat_map_mat (g : R -> R) (m : matrix R) :
  concat (rows (map_mat g m)) = map g (concat (rows m)).
Proof. unfold map_mat; cbn [rows]; now rewrite concat_map. Qed.

Lemma entry_map_mat (g : R -> R) (m : matrix R) (i j : nat) :
  wf m = true -> (i < nrows m)%nat -> (j < ncols m)%nat ->
  entry (map_mat g m) i j = g (entry m i j).
Proof.
  intros Hwf Hi Hj; unfold entry, map_mat; cbn [rows].
  rewrite (nth_map_lt (map g) _ _ []) by assumption.
  apply nth_map_lt.
  rewrite (wf_rows m _ Hwf); [assumption|now apply nth_In].
Qed.

Lemma entry_in_concat (m : matrix R) (i j : nat) :
  wf m = true -> (i < nrows m)%nat -> (j < ncols m)%nat ->
  In (entry m i j) (concat (rows m)).
Proof.
  intros Hwf Hi Hj; apply in_concat; exists (nth i (rows m) []).
  split; [now apply nth_In|].
  apply nth_In; rewrite (wf_rows m _ Hwf); [assumption|now apply nth_In].
Qed.

End SimilarityFacts.

(** X15.  In exact arithmetic, lines 73-75 turn a matrix [D] of distances
    with at least one entry into [(hi - D) / (hi - lo)], where [hi] and
    [lo] are the largest and the smallest distance: when the distances
    are not all the same every entry lies between 0 and 1, the closest
    pairs (the diagonal of a distance matrix) get 1 and the farthest 0. *)
Theorem distance_similarity_spec (D : matrix R) :
  wf D = true ->
  concat (rows D) <> [] ->
  exists S hi lo,
    distance_similarity D = Ok S /\
    nrows S = nrows D /\ ncols S = ncols D /\
    In hi (concat (rows D)) /\ In lo (concat (rows D)) /\
    (forall d, In d (concat (rows D)) -> (lo <= d <= hi)%R) /\
    forall i j, i < nrows D -> j < ncols D ->
      entry S i j = ((hi - entry D i j) / (hi - lo))%R /\
      ((lo < hi)%R ->
       (0 <= entry S i j <= 1)%R /\
       (entry D i j = lo -> entry S i j = 1%R) /\
       (entry D i j = hi -> entry S i j = 0%R)).
Proof.
  intros Hwf Hne; unfold distance_similarity.
  destruct (np_max_spec D Hne) as [hi [Ehi [Hhi Hmax]]]; rewrite Ehi; cbn [bind].
  set (R1 := map_mat (fun d => fsub hi d) D).
  assert (Hne1 : concat (rows R1) <> []).
  { unfold R1; rewrite concat_map_mat; destruct (concat (rows D)); [congruence|discriminate]. }
  destruct (np_min_spec R1 Hne1) as [mn [Emn [Hmn Hmin]]]; rewrite Emn; cbn [bind].
  unfold R1 in Hmn, Hmin; rewrite concat_map_mat in Hmn, Hmin.
  assert (Hmn0 : mn = 0%R).
  { apply in_map_iff in Hmn; destruct Hmn as [y [Ey Hy]].
    cbn [fsub R_scalar] in Ey.
    assert (H1 : (mn <= hi - hi)%R)
      by (apply Hmin, in_map_iff; exists hi; split; [reflexivity|assumption]).
    specialize (Hmax y Hy); lra. }
  set (R2 := map_mat (fun r => fsub r mn) R1).
  assert (Hne2 : concat (rows R2) <> []).
  { unfold R2; rewrite concat_map_mat; destruct (concat (rows R1)); [congruence|discriminate]. }
  destruct (np_max_spec R2 Hne2) as [mx2 [Emx2 [Hmx2 Hmax2]]]; rewrite Emx2; cbn [bind].
  unfold R2, R1 in Hmx2, Hmax2; rewrite !concat_map_mat, map_map in Hmx2, Hmax2.
  apply in_map_iff in Hmx2; destruct Hmx2 as [lo [Elo Hlo]].
  cbn [fsub R_scalar] in Elo.
  assert (Hlomin : forall d, In d (concat (rows D)) -> (lo <= d)%R).
  { intros d Hd.
    assert (H : (hi - d - mn <= mx2)%R)
      by (apply Hmax2, in_map_iff; exists d; split; [reflexivity|assumption]).
    lra. }
  exists (map_mat (fun r => fdiv r mx2) R2), hi, lo.
  split; [reflexivity|].
  split; [unfold nrows, map_mat, R2, R1; simpl; now rewrite !length_map|].
  split; [reflexivity|].
  split; [assumption|]; split; [assumption|].
  split; [intros d Hd; split; [now apply Hlomin|now apply Hmax]|].
  intros i j Hi Hj.
  assert (HwR1 : wf R1 = true).
  { apply wf_intro; intros r Hr; unfold R1, map_mat in Hr; cbn [rows] in Hr.
    apply in_map_iff in Hr; destruct Hr as [r0 [<- H0]].
    rewrite length_map; now apply wf_rows. }
  assert (HwR2 : wf R2 = true).
  { apply wf_intro; intros r Hr; unfold R2, map_mat in Hr; cbn [rows] in Hr.
    apply in_map_iff in Hr; destruct Hr as [r0 [<- H0]].
    rewrite length_map; now apply (wf_rows R1). }
  assert (HnR1 : nrows R1 = nrows D)
    by (unfold nrows, R1, map_mat; simpl; now rewrite length_map).
  assert (HnR2 : nrows R2 = nrows D)
    by (unfold nrows, R2, R1, map_mat; simpl; now rewrite !length_map).
  assert (E : entry (map_mat (fun r => fdiv r mx2) R2) i j
              = ((hi - entry D i j) / (hi - lo))%R).
  { rewrite entry_map_mat by (try assumption; try (rewrite HnR2; assumption)).
    unfold R2; rewrite entry_map_mat by (try assumption; try (rewrite HnR1; assumption)).
    unfold R1; rewrite entry_map_mat by assumption.
    cbn [fdiv fsub R_scalar]; rewrite <- Elo, Hmn0.
    f_equal; lra. }
  split; [exact E|].
  intros Hlt; rewrite E.
  pose proof (entry_in_concat D i j Hwf Hi Hj) as Hd.
  pose proof (Hlomin _ Hd); pose proof (Hmax _ Hd).
  repeat split.
  - apply Rmult_le_pos; [lra|left; apply Rinv_0_lt_compat; lra].
  - apply (Rmult_le_reg_r (hi - lo)); [lra|].
    unfold Rdiv; rewrite Rmult_assoc, Rinv_l by lra; lra.
  - intros ->; field; lra.
  - intros ->; unfold Rdiv; rewrite Rminus_diag; apply Rmult_0_l.
Qed.

Lemma distance_similarity_spec_witness :
  exists S,
    distance_similarity Samples.D_line = Ok S /\ nrows S = 3 /\ ncols S = 3.
Proof.
  destruct (distance_similarity_spec Samples.D_line eq_refl)
    as [S [hi [lo [HS [Hn [Hc _]]]]]].
  - discriminate.
  - exists S; repeat split; assumption.
Defined.

(* ================================================================= *)
(** ** The files of the synthetic patients *)

Lemma FinFun_NoDup_map {A B : Type} (f : A -> B) (l : list A) :
  (forall x y, f x = f y -> x = y) -> NoDup l -> NoDup (map f l).
Proof.
  intros Hf; induction 1 as [|a l Ha Hl IH]; simpl; constructor; [|assumption].
  intros Hin; apply in_map_iff in Hin; destruct Hin as [x [Hx Hxl]].
  apply Hf in Hx; now subst.
Qed.

Section FileNameFacts.
Import String Ascii.
Import FileNames.
Local Open Scope string_scope.

Lemma py_str_inj (n m : nat) : py_str n = py_str m -> n = m.
Proof.
  unfold py_str; intros H; apply DecimalNat.Unsigned.to_uint_inj.
  apply (f_equal DecimalString.NilEmpty.uint_of_string) in H.
  rewrite !DecimalString.NilEmpty.usu in H; now inversion H.
Qed.

Lemma to_uint_normal (n : nat) : Decimal.unorm (Nat.to_uint n) = Nat.to_uint n.
Proof.
  rewrite <- DecimalNat.Unsigned.to_of; now rewrite DecimalNat.Unsigned.of_to.
Qed.

(** The decimal digits of a number do not start with a zero, the number
    zero apart. *)
Lemma to_uint_leading_zero (n : nat) (d : Decimal.uint) :
  Nat.to_uint n = Decimal.D0 d -> d = Decimal.Nil.
Proof.
  intros H; pose proof (to_uint_normal n) as Hn.
  rewrite H, DecimalFacts.unorm_D0 in Hn; unfold Decimal.unorm in Hn.
  destruct (Decimal.nzhead d) eqn:E; try (now inversion Hn);
    exfalso; apply (DecimalFacts.nzhead_nonzero d d); congruence.
Qed.

Lemma to_uint_not_nil (n : nat) : Nat.to_uint n <> Decimal.Nil.
Proof.
  intros H; pose proof (to_uint_normal n) as Hn; rewrite H in Hn; discriminate.
Qed.

Lemma string_of_uint_zero (d : Decimal.uint) (s : string) :
  DecimalString.NilEmpty.string_of_uint d = String "0" s ->
  exists d', d = Decimal.D0 d' /\ DecimalString.NilEmpty.string_of_uint d' = s.
Proof.
  destruct d; simpl; intros H; try discriminate.
  inversion H; eauto.
Qed.

Lemma string_of_uint_empty (d : Decimal.uint) :
  DecimalString.NilEmpty.string_of_uint d = "" -> d = Decimal.Nil.
Proof. destruct d; simpl; intros H; try discriminate; reflexivity. Qed.

Lemma py_str_length (n : nat) : (1 <= String.length (py_str n))%nat.
Proof.
  unfold py_str; pose proof (to_uint_not_nil n) as Hn.
  destruct (Nat.to_uint n); simpl; try lia; congruence.
Qed.

(** A number of one digit padded with a zero is not the decimal writing of
    another number. *)
Lemma padded_not_py_str (n m : nat) :
  String.length (py_str n) = 1%nat -> String "0" (py_str n) <> py_str m.
Proof.
  intros Hl H; unfold py_str in H; symmetry in H.
  apply string_of_uint_zero in H; destruct H as [d' [Hm Hd']].
  apply to_uint_leading_zero in Hm; subst d'; simpl in Hd'.
  fold (py_str n) in Hd'; rewrite <- Hd' in Hl; discriminate.
Qed.

Lemma rjust_2_cases (n : nat) :
  (String.length (py_str n) = 1%nat /\ rjust 2 "0" (py_str n) = String "0" (py_str n)) \/
  ((2 <= String.length (py_str n))%nat /\ rjust 2 "0" (py_str n) = py_str n).
Proof.
  pose proof (py_str_length n) as Hl; unfold rjust.
  destruct (Nat.leb_spec 2 (String.length (py_str n))) as [H|H]; [right; now split|left].
  assert (E : String.length (py_str n) = 1%nat) by lia.
  split; [assumption|rewrite E; reflexivity].
Qed.

Lemma rjust_py_str_inj (n m : nat) :
  rjust 2 "0" (py_str n) = rjust 2 "0" (py_str m) -> n = m.
Proof.
  destruct (rjust_2_cases n) as [[Ln ->]|[Ln ->]], (rjust_2_cases m) as [[Lm ->]|[Lm ->]];
    intros H.
  - inversion H; now apply py_str_inj.
  - exfalso; exact (padded_not_py_str n m Ln H).
  - exfalso; exact (padded_not_py_str m n Lm (eq_sym H)).
  - now apply py_str_inj.
Qed.

Lemma synthetic_name_inj (n m : nat) : synthetic_name n = synthetic_name m -> n = m.
Proof.
  unfold synthetic_name; cbn [append]; intros H.
  inversion H; now apply rjust_py_str_inj.
Qed.

Lemma append_assoc_string (s1 s2 s3 : string) : (s1 ++ s2) ++ s3 = s1 ++ (s2 ++ s3).
Proof. induction s1 as [|c s1 IH]; simpl; congruence. Qed.

Lemma synthetic_name_length_100 :
  forallb (fun n => String.length (synthetic_name n) =? 12)%nat (seq 0 100) = true.
Proof. vm_compute; reflexivity. Qed.

(** X16.  The fifty synthetic patients are saved under fifty different
    names: the name determines the count (for every count, not only the
    first fifty), a count below 100 gives ['synthetic_'] and two digits,
    and the file opened for the patient [i] on line 110 is the name saved
    for the count [i] followed by ['.bo']. *)
Theorem synthetic_names_distinct :
  (forall n m, synthetic_name n = synthetic_name m -> n = m) /\
  NoDup saved_names /\
  List.length saved_names = 50%nat /\
  (forall n, (n < 100)%nat -> String.length (synthetic_name n) = 12%nat) /\
  (forall i, synthetic_file i = synthetic_name i ++ ".bo").
Proof.
  split; [exact synthetic_name_inj|].
  split.
  { unfold saved_names; apply FinFun_NoDup_map; [exact synthetic_name_inj|apply seq_NoDup]. }
  split; [reflexivity|].
  split.
  - intros n Hn; pose proof synthetic_name_length_100 as H.
    rewrite forallb_forall in H; apply Nat.eqb_eq, H, in_seq; lia.
  - intros i; unfold synthetic_file, synthetic_name; now rewrite append_assoc_string.
Qed.

End FileNameFacts.

(* ================================================================= *)
(** ** What standardizing does to a column *)

Lemma column_zscore {F : Type} {SF : Scalar F} (a : matrix F) (j : nat) :
  wf a = true -> j < ncols a ->
  column j (zscore a)
  = map (fun x => fdiv (fsub x (np_mean (column j a))) (np_std (column j a)))
      (column j a).
Proof.
  intros Hwf Hj.
  set (m := np_mean (column j a)); set (s := np_std (column j a)).
  assert (Hm : nth j (map (fun j => np_mean (column j a)) (seq 0 (ncols a))) fzero = m).
  { rewrite (nth_map_lt _ (seq 0 (ncols a)) j 0) by (rewrite length_seq; lia).
    now rewrite seq_nth. }
  assert (Hs : nth j (map (fun j => np_std (column j a)) (seq 0 (ncols a))) fzero = s).
  { rewrite (nth_map_lt _ (seq 0 (ncols a)) j 0) by (rewrite length_seq; lia).
    now rewrite seq_nth. }
  unfold column, zscore; cbn [rows]; rewrite !map_map.
  apply map_ext_in; intros r Hr.
  pose proof (wf_rows a r Hwf Hr) as Hl.
  rewrite (nth_map2 fdiv _ _ j fzero fzero fzero);
    [|rewrite length_map2, length_map, length_seq; lia|rewrite length_map, length_seq; lia].
  rewrite (nth_map2 fsub _ _ j fzero fzero fzero);
    [|lia|rewrite length_map, length_seq; lia].
  now rewrite Hm, Hs.
Qed.

Section Standardized.
Local Open Scope R_scope.

Lemma np_sum_centred (c : list R) :
  c <> [] -> np_sum (map (fun v => fsub v (np_mean c)) c) = 0.
Proof.
  intros Hc.
  assert (Hn : INR (length c) <> 0) by (apply not_0_INR; destruct c; simpl; congruence).
  transitivity (np_sum (map (fun x => 1 * x + - np_mean c) c)).
  - f_equal; apply map_ext; intros x; cbn [fsub R_scalar]; lra.
  - rewrite np_sum_affine; unfold np_mean; cbn [fdiv of_nat R_scalar]; now field.
Qed.

(** X17.  In exact arithmetic a column that takes two different values
    comes out of the standardization of line 213 with mean zero and
    standard deviation one. *)
Theorem zscore_standardizes (a : matrix R) (j : nat) :
  wf a = true -> (j < ncols a)%nat ->
  (exists x y, In x (column j a) /\ In y (column j a) /\ x <> y) ->
  np_mean (column j (zscore a)) = 0 /\ np_std (column j (zscore a)) = 1.
Proof.
  intros Hwf Hj [x [y [Hx [Hy Hxy]]]].
  rewrite (column_zscore a j Hwf Hj).
  set (c := column j a) in *.
  assert (Hc : c <> []) by (destruct c; [destruct Hx|discriminate]).
  assert (Hn : 0 < INR (length c)) by (apply lt_0_INR; destruct c; simpl; [congruence|lia]).
  set (m := np_mean c).
  set (ss := sum_of_squares (map (fun v => fsub v m) c)).
  assert (Hss : 0 < ss) by exact (sum_of_squares_pos c m x y Hx Hy Hxy).
  assert (Hs : np_std c = R_sqrt.sqrt (ss / INR (length c))) by reflexivity.
  set (s := np_std c) in *.
  assert (Hs0 : 0 < s).
  { rewrite Hs; apply sqrt_lt_R0, Rdiv_lt_0_compat; assumption. }
  assert (Hs2 : s * s = ss / INR (length c)).
  { rewrite Hs; apply sqrt_sqrt; left; apply Rdiv_lt_0_compat; assumption. }
  assert (E : map (fun x => fdiv (fsub x m) s) c
              = map (fun v => / s * v) (map (fun v => fsub v m) c)).
  { rewrite map_map; apply map_ext; intros v; cbn [fdiv fsub R_scalar]; unfold Rdiv; ring. }
  assert (Hmean : np_mean (map (fun x => fdiv (fsub x m) s) c) = 0).
  { unfold np_mean at 1; rewrite length_map, E.
    transitivity (np_sum (map (fun v => / s * v + 0) (map (fun v => fsub v m) c))
                  / INR (length c)).
    - cbn [fdiv of_nat R_scalar]; do 2 f_equal; apply map_ext; intros v; lra.
    - rewrite np_sum_affine; unfold m; rewrite np_sum_centred by assumption.
      unfold Rdiv; ring. }
  split; [exact Hmean|].
  unfold np_std; cbv zeta; rewrite Hmean, length_map.
  replace (map (fun x0 => fsub x0 0) (map (fun x0 => fdiv (fsub x0 m) s) c))
    with (map (fun x0 => fdiv (fsub x0 m) s) c)
    by (rewrite (map_map _ (fun x0 => fsub x0 0)); apply map_ext; intros v;
        cbn [fsub R_scalar]; lra).
  rewrite E, (sum_of_squares_scaled (/ s)); fold ss.
  cbn [fsqrt fdiv of_nat R_scalar].
  replace (/ s * / s * ss / INR (length c)) with 1; [apply sqrt_1|].
  assert (Hss' : ss = s * s * INR (length c)) by (rewrite Hs2; field; lra).
  rewrite Hss'; field; split; lra.
Qed.

End Standardized.

Lemma zscore_standardizes_witness :
  np_mean (column 0 (zscore (get_data Real.bo_3x2))) = 0%R /\
  np_std (column 0 (zscore (get_data Real.bo_3x2))) = 1%R.
Proof.
  apply (zscore_standardizes (get_data Real.bo_3x2) 0 eq_refl).
  - unfold Real.bo_3x2; simpl; lia.
  - exists 1%R, 3%R; unfold Real.bo_3x2; simpl; repeat split; auto; lra.
Defined.

(* ================================================================= *)
(** ** A location that is correlated with no electrode *)

Section Uncorrelated.
Context {F : Type} {SF : Scalar F}.
Hypothesis mul_0_l : forall x : F, fmul fzero x = fzero.
Hypothesis add_0_0 : fadd fzero fzero = @fzero F SF.

Lemma dotprod_zero_l (zs ys : list F) :
  (forall z, In z zs -> z = fzero) -> dotprod zs ys = fzero.
Proof.
  unfold dotprod; revert ys; induction zs as [|z zs IH]; intros ys Hz; [reflexivity|].
  destruct ys as [|y ys]; [reflexivity|]; cbn [combine fold_left fst snd].
  rewrite (Hz z (or_introl eq_refl)), mul_0_l, add_0_0.
  apply IH; intros z' Hz'; apply Hz; now right.
Qed.

Lemma location_estimate_zero (M : matrix F) (u : Z) (known : list Z) (obs P : matrix F) :
  (forall c, In c known -> entry M (Z.to_nat u) (Z.to_nat c) = fzero) ->
  location_estimate M u known obs P = repeat fzero (nrows obs).
Proof.
  intros Hu; unfold location_estimate.
  transitivity (map (fun _ : nat => @fzero F SF) (seq 0 (nrows obs)));
    [|now rewrite map_const, length_seq].
  apply map_ext; intros t; apply dotprod_zero_l.
  intros w Hw; unfold weights in Hw; apply in_map_iff in Hw.
  destruct Hw as [k [<- _]]; apply dotprod_zero_l.
  intros z Hz; apply in_map_iff in Hz; destruct Hz as [c [<- Hc]]; now apply Hu.
Qed.

End Uncorrelated.

(** X18.  In exact arithmetic, an unknown location whose correlation with
    every observed location is zero is estimated as zero at every sample,
    whatever was recorded. *)
Theorem recon_no_expand_uncorrelated {F : Type} {SF : Scalar F}
    (z2r : F -> F) (pinv : matrix F -> result (matrix F))
    (mo : Model F) (bo_sub : Brain F) (M : matrix F) (L j : nat) :
  (forall x : F, fmul fzero x = fzero) ->
  fadd fzero fzero = @fzero F SF ->
  pinv_shape pinv -> pinv_converges pinv ->
  correlation_model z2r mo = Ok M ->
  wf M = true -> nrows M = L -> ncols M = L -> mat_finite M = true ->
  mo_locs_index mo = range_index L ->
  NoDup (locs_index bo_sub) ->
  (forall i, In i (locs_index bo_sub) -> (0 <= i < Z.of_nat L)%Z) ->
  ncols (get_data bo_sub) = length (locs_index bo_sub) ->
  nrows (get_data bo_sub) <> 1 ->
  L - length (locs_index bo_sub) <> 1 ->
  j < L - length (locs_index bo_sub) ->
  (forall c, In c (locs_index bo_sub) ->
             entry M (Z.to_nat (nth j (unobserved L (locs_index bo_sub)) 0%Z)) (Z.to_nat c)
             = fzero) ->
  exists X,
    recon_no_expand z2r pinv bo_sub mo = Ok (Arr2 X) /\
    nrows X = nrows (get_data bo_sub) /\
    column j X = repeat fzero (nrows (get_data bo_sub)).
Proof.
  intros mul_0_l add_0_0 Hshape Hconv HM Hwf Hr Hc Hfin Hidx Hnd Hin Hobs HT HU Hj Hzero.
  destruct (recon_no_expand_Ok z2r pinv Hshape Hconv mo bo_sub M L
              HM Hwf Hr Hc Hfin Hidx Hin Hobs) as [P [_ Heq]].
  set (X := reconstruct_spec M L (locs_index bo_sub) (get_data bo_sub) P) in *.
  assert (HnX : nrows X = nrows (get_data bo_sub)) by apply nrows_reconstruct_spec.
  assert (HcX : ncols X = L - length (locs_index bo_sub))
    by (unfold X; now rewrite ncols_reconstruct_spec, length_unobserved).
  exists X; rewrite Heq, squeeze_id by congruence.
  repeat split; [assumption|].
  unfold X; rewrite column_reconstruct_spec by now rewrite length_unobserved.
  now apply location_estimate_zero.
Qed.

Lemma recon_no_expand_uncorrelated_witness :
  exists X,
    recon_no_expand tanh Real.pinv Samples.bo_3x1 Real.mo = Ok (Arr2 X) /\
    nrows X = 3 /\
    column 0 X = [0; 0; 0]%R.
Proof.
  apply (recon_no_expand_uncorrelated (SF := R_scalar) tanh Real.pinv Real.mo Samples.bo_3x1 Real.M 5 0
           Rmult_0_l (Rplus_0_l 0%R) pinv_newton_shape pinv_newton_converges
           Real_model Real_model_wf eq_refl eq_refl (mat_finite_R _) eq_refl).
  - repeat constructor; simpl; intuition lia.
  - simpl; intuition lia.
  - reflexivity.
  - unfold Samples.bo_3x1, nrows, get_data; simpl; lia.
  - unfold Samples.bo_3x1; simpl; lia.
  - unfold Samples.bo_3x1; simpl; lia.
  - intros c [<-|[]]; exact tanh_zero.
Defined.
